(** * Score aggregation and ranking of the hackathon judge app

    A shallow embedding of the aggregation engine of [src/app.py]:
    [calculate_all_team_scores], [get_category_winners], the overall
    standings block of [view_leaderboard] and the save action of
    [judge_teams].

    Modelling choices.
    - Python [dict]s are insertion ordered; they are association lists
      whose [Dict.set] overwrites in place or appends at the end.
    - Python [int]s are [Z].  The results of true division ([/]) are
      exact rationals ([Qc]): the development is about the arithmetic
      the program denotes, not about binary rounding.
    - [/] raises [ZeroDivisionError] and [d[k]] raises [KeyError]: both
      are [None] in the error monad [option]. *)

From Stdlib Require Import Ascii List String ZArith QArith Qcanon Bool Lia.
From Stdlib Require Import Permutation Sorted.
Import ListNotations.

Local Open Scope string_scope.
Local Open Scope list_scope.
Local Open Scope Z_scope.

(** ** Error monad *)

Definition bind {A B : Type} (m : option A) (k : A -> option B) : option B :=
  match m with
  | Some a => k a
  | None => None
  end.

Notation "x <- m ;; k" := (bind m (fun x => k))
  (at level 61, m at next level, right associativity).

(** [for x in l: s = body(s, x)] where the body may raise. *)
Fixpoint for_each {S A : Type} (body : S -> A -> option S) (l : list A) (s : S)
  : option S :=
  match l with
  | [] => Some s
  | x :: l' => s' <- body s x ;; for_each body l' s'
  end.

(** ** Insertion-ordered dictionaries *)

Module Dict.

Definition dict (V : Type) : Type := list (string * V).

Section Ops.
Context {V : Type}.

(** [d[k]], raising [KeyError] as [None]. *)
Fixpoint get (k : string) (d : dict V) : option V :=
  match d with
  | [] => None
  | (k', v) :: d' => if String.eqb k k' then Some v else get k d'
  end.

(** [k in d] *)
Definition mem (k : string) (d : dict V) : bool :=
  match get k d with
  | Some _ => true
  | None => false
  end.

(** [d[k] = v]: an existing key keeps its position. *)
Fixpoint set (k : string) (v : V) (d : dict V) : dict V :=
  match d with
  | [] => [(k, v)]
  | (k', v') :: d' =>
      if String.eqb k k' then (k, v) :: d' else (k', v') :: set k v d'
  end.

(** In-place mutation of the object stored under [k]. *)
Fixpoint update (k : string) (f : V -> V) (d : dict V) : dict V :=
  match d with
  | [] => []
  | (k', v') :: d' =>
      if String.eqb k k' then (k', f v') :: d' else (k', v') :: update k f d'
  end.

Definition keys (d : dict V) : list string := map fst d.
Definition values (d : dict V) : list V := map snd d.
Definition items (d : dict V) : list (string * V) := d.

End Ops.
End Dict.

Import Dict.

(** ** Numbers *)

Definition Z2Qc (z : Z) : Qc := Q2Qc (inject_Z z).

(** Python's [a / b]. *)
Definition true_div (a b : Qc) : option Qc :=
  if Qc_eq_dec b (Z2Qc 0) then None else Some (a / b)%Qc.

(** [sum(...)] over integers. *)
Definition sum (l : list Z) : Z := fold_left Z.add l 0.

(** ** Configuration ([config.yaml]) *)

Record Criterion := mkCriterion {
  crit_name : string;
  max_score : Z
}.

Record Category := mkCategory {
  cat_name : string;
  criteria : list Criterion
}.

Record Config := mkConfig {
  teams : list string;
  judges : list string;
  categories : list Category
}.

(** ** The score store ([scores.json]) *)

Record Submission := mkSubmission {
  judge : string;
  team : string;
  scores : dict (dict Z);
  notes : string;
  timestamp : string
}.

Definition ScoreStore : Type := dict Submission.

(** ** Derived statistics *)

Record Stat := mkStat {
  avg_score : Qc;
  total_possible : Z;
  percentage : Qc;
  judges_count : Z
}.

Definition zero_stat : Stat :=
  {| avg_score := Z2Qc 0; total_possible := 0;
     percentage := Z2Qc 0; judges_count := 0 |}.

Definition TeamScores : Type := dict (dict Stat).

Definition get_stat (T : TeamScores) (t c : string) : option Stat :=
  cats <- get t T ;; get c cats.

Section Engine.

Variable config : Config.

(** [[cat["name"] for cat in config["categories"]]] *)
Definition all_categories : list string := map cat_name (categories config).

(** [sum(criterion["max_score"] for cat in config["categories"]
         if cat["name"] == category for criterion in cat["criteria"])] *)
Definition category_max (category : string) : Z :=
  sum (flat_map
         (fun cat =>
            if String.eqb (cat_name cat) category
            then map max_score (criteria cat) else [])
         (categories config)).

(** [sum(criteria_scores.values())] *)
Definition category_score (criteria_scores : dict Z) : Z :=
  sum (values criteria_scores).

(** The initialisation loop of [calculate_all_team_scores]. *)
Definition init_team (T : TeamScores) (team : string) : TeamScores :=
  fold_left
    (fun T' category => update team (set category zero_stat) T')
    all_categories
    (set team [] T).

Definition init_scores : TeamScores :=
  fold_left init_team (teams config) [].

(** The body of the inner loop, once [current] has been looked up:
    lines "Update the running totals" to the percentage. *)
Definition update_stat (cmax cscore : Z) (current : Stat) : option Stat :=
  let n := judges_count current + 1 in
  let current_avg := avg_score current in
  new_avg <- true_div (current_avg * Z2Qc (n - 1) + Z2Qc cscore)%Qc (Z2Qc n) ;;
  pct <- (if 0 <? cmax
          then q <- true_div new_avg (Z2Qc cmax) ;; Some (q * Z2Qc 100)%Qc
          else Some (Z2Qc 0)) ;;
  Some {| avg_score := new_avg;
          total_possible := cmax;
          percentage := pct;
          judges_count := n |}.

(** One iteration of [for category, criteria_scores in data["scores"].items()]. *)
Definition process_category (team : string) (T : TeamScores)
    (item : string * dict Z) : option TeamScores :=
  let '(category, criteria_scores) := item in
  cats <- get team T ;;
  if negb (mem category cats) then Some T
  else
    let cmax := category_max category in
    let cscore := category_score criteria_scores in
    current <- get category cats ;;
    current' <- update_stat cmax cscore current ;;
    Some (update team (set category current') T).

(** One iteration of [for _, data in scores_data["scores"].items()]. *)
Definition process_submission (T : TeamScores)
    (entry : string * Submission) : option TeamScores :=
  let data := snd entry in
  if negb (mem (team data) T) then Some T
  else for_each (process_category (team data)) (items (scores data)) T.

Definition calculate_all_team_scores (scores_data : ScoreStore)
  : option TeamScores :=
  let team_category_scores := init_scores in
  match scores_data with
  | [] => Some team_category_scores
  | _ => for_each process_submission (items scores_data) team_category_scores
  end.

End Engine.

(** ** Rankings *)

(** [l.sort(key=..., reverse=True)]: Python's sort is stable and stays
    stable under [reverse=True], so it is determined by the keys; it is
    modelled by the stable insertion sort into descending order. *)
Section Sort.
Context {A : Type}.
Variable key : A -> Qc.

Fixpoint insert_desc (x : A) (l : list A) : list A :=
  match l with
  | [] => [x]
  | y :: l' =>
      if Qle_bool (key y) (key x) then x :: y :: l'
      else y :: insert_desc x l'
  end.

Definition sort_reverse (l : list A) : list A :=
  fold_right insert_desc [] l.

End Sort.

Section Rankings.

Variable config : Config.

(** The inner loop of [get_category_winners] for one category. *)
Definition category_results (category : string) (team_scores : TeamScores)
  : list (string * Qc) :=
  fold_left
    (fun (acc : list (string * Qc)) (entry : string * dict Stat) =>
       let '(team, cats) := entry in
       match get category cats with
       | Some st =>
           if 0 <? judges_count st
           then acc ++ [(team, percentage st)]
           else acc
       | None => acc
       end)
    (items team_scores) [].

Definition get_category_winners (team_scores : TeamScores)
  : dict (list (string * Qc)) :=
  fold_left
    (fun category_winners category =>
       set category
           (sort_reverse snd (category_results category team_scores))
           category_winners)
    (all_categories config) [].

End Rankings.

(** ** Overall standings ([view_leaderboard]) *)

Definition Standing : Type := string * Qc * Z.

Definition standing_score (x : Standing) : Qc := snd (fst x).

(** The accumulators [total_score], [total_categories] of one team. *)
Definition team_totals (cats : dict Stat) : Qc * Z :=
  fold_left
    (fun (acc : Qc * Z) (entry : string * Stat) =>
       let '(total_score, total_categories) := acc in
       let data := snd entry in
       if 0 <? judges_count data
       then ((total_score + percentage data)%Qc, total_categories + 1)
       else (total_score, total_categories))
    (items cats) (Z2Qc 0, 0).

Definition overall_step (overall_scores : list Standing)
    (entry : string * dict Stat) : option (list Standing) :=
  let '(team, cats) := entry in
  let '(total_score, total_categories) := team_totals cats in
  if 0 <? total_categories
  then avg <- true_div total_score (Z2Qc total_categories) ;;
       Some (overall_scores ++ [(team, avg, total_categories)])
  else Some overall_scores.

Definition overall_standings (team_scores : TeamScores)
  : option (list Standing) :=
  overall_scores <- for_each overall_step (items team_scores) [] ;;
  match overall_scores with
  | [] => Some []
  | _ => Some (sort_reverse standing_score overall_scores)
  end.

(** ** The save action of [judge_teams] *)

(** [f"{judge}_{team}"] *)
Definition judge_key (judge team : string) : string :=
  (judge ++ "_" ++ team)%string.

Definition save_action (judge team : string) (team_scores : dict (dict Z))
    (notes now : string) (scores_data : ScoreStore) : ScoreStore :=
  set (judge_key judge team)
      {| judge := judge; team := team; scores := team_scores;
         notes := notes; timestamp := now |}
      scores_data.

(** ** Specification-level notions *)

(** The update of one cell with the division carried out. *)
Definition step (cmax cscore : Z) (st : Stat) : Stat :=
  let n := judges_count st + 1 in
  let new_avg := ((avg_score st * Z2Qc (n - 1) + Z2Qc cscore) / Z2Qc n)%Qc in
  {| avg_score := new_avg;
     total_possible := cmax;
     percentage := if 0 <? cmax
                   then (new_avg / Z2Qc cmax * Z2Qc 100)%Qc else Z2Qc 0;
     judges_count := n |}.

Definition run (cmax : Z) (l : list Z) (st : Stat) : Stat :=
  fold_left (fun st' s => step cmax s st') l st.

(** The category scores one submission contributes to category [c]. *)
Definition cat_contribs (c : string) (its : list (string * dict Z)) : list Z :=
  flat_map
    (fun it => if String.eqb (fst it) c then [sum (values (snd it))] else [])
    its.

(** The category scores [s1 .. sn] the store contributes to the pair
    [(t, c)], in iteration order. *)
Definition contribs (t c : string) (store : ScoreStore) : list Z :=
  flat_map
    (fun e => if String.eqb (team (snd e)) t
              then cat_contribs c (scores (snd e)) else [])
    store.

(** [l.index(x)]: position of the first occurrence. *)
Fixpoint index_of (x : string) (l : list string) : nat :=
  match l with
  | [] => O
  | y :: l' => if String.eqb x y then O else S (index_of x l')
  end.

(** [x] occurs at an earlier position of [l] than [y]. *)
Definition before {A : Type} (x y : A) (l : list A) : Prop :=
  exists l1 l2 l3, l = l1 ++ x :: l2 ++ y :: l3.

(** Keys in order of first occurrence. *)
Fixpoint dedup_first (l : list string) : list string :=
  match l with
  | [] => []
  | x :: l' => x :: filter (fun y => negb (String.eqb x y)) (dedup_first l')
  end.

Definition judged (st : Stat) : bool := 0 <? judges_count st.

(** The judged categories of a team, as the specification words them. *)
Definition judged_stats (cats : dict Stat) : list Stat :=
  filter judged (values cats).

Definition Qc_sum (l : list Qc) : Qc := fold_right Qcplus (Z2Qc 0) l.

(** ** Scenario of the specification *)

Definition demo_config : Config :=
  {| teams := ["Alpha"; "Beta"];
     judges := ["J1"; "J2"];
     categories := [ {| cat_name := "Tech";
                        criteria := [ {| crit_name := "crit"; max_score := 10 |} ] |} ] |}.

Definition demo_sub (j t : string) (v : Z) : Submission :=
  {| judge := j; team := t; scores := [("Tech", [("crit", v)])];
     notes := ""; timestamp := "2025-01-01 00:00:00" |}.

Definition stat_view (s : Stat) : Q * Z * Q * Z :=
  (this (avg_score s), total_possible s, this (percentage s), judges_count s).

Definition ranking_view (r : list (string * Qc)) : list (string * Q) :=
  map (fun x => (fst x, this (snd x))) r.

Definition standing_view (r : list Standing) : list (string * Q * Z) :=
  map (fun x => (fst (fst x), this (snd (fst x)), snd x)) r.

Definition table_view (T : TeamScores) :=
  map (fun x => (fst x, map (fun y => (fst y, stat_view (snd y))) (snd x))) T.

(** Every cell of the table has a count that can be incremented. *)
Definition counts_ok (T : TeamScores) : Prop :=
  forall t c st, get_stat T t c = Some st -> 0 <= judges_count st.

(** The inner dictionary every team starts with. *)
Definition init_categories (config : Config) : dict Stat :=
  fold_left (fun d category => set category zero_stat d) (all_categories config) [].

(** What one team contributes to the ranking of a category. *)
Definition candidate (category : string) (entry : string * dict Stat)
  : list (string * Qc) :=
  match get category (snd entry) with
  | Some st =>
      if 0 <? judges_count st then [(fst entry, percentage st)] else []
  | None => []
  end.

(** What one team contributes to the overall standings. *)
Definition standing_of (entry : string * dict Stat) : list Standing :=
  let k := Z.of_nat (List.length (judged_stats (snd entry))) in
  if 0 <? k
  then [(fst entry,
         (Qc_sum (map percentage (judged_stats (snd entry))) / Z2Qc k)%Qc,
         k)]
  else [].

(** Descending order of the keys. *)
Definition descending {A : Type} (key : A -> Qc) (x y : A) : Prop :=
  (key y <= key x)%Qc.

(** ** Concrete stores over the scenario *)

Definition two_judges : ScoreStore :=
  [("J1_Alpha", demo_sub "J1" "Alpha" 6); ("J2_Alpha", demo_sub "J2" "Alpha" 10)].

Definition two_judges_rev : ScoreStore :=
  [("J2_Alpha", demo_sub "J2" "Alpha" 10); ("J1_Alpha", demo_sub "J1" "Alpha" 6)].

Definition tied_store : ScoreStore :=
  [("J1_Beta", demo_sub "J1" "Beta" 8); ("J1_Alpha", demo_sub "J1" "Alpha" 8)].

Definition orphan : string * Submission :=
  ("J1_Gamma", demo_sub "J1" "Gamma" 9).

(** A submission naming a criterion the configuration does not have. *)
Definition extra_sub : Submission :=
  {| judge := "J2"; team := "Alpha";
     scores := [("Tech", [("crit", 7); ("bonus", 5)])];
     notes := ""; timestamp := "2025-01-01 00:00:01" |}.

Definition result_of (config : Config) (store : ScoreStore) : TeamScores :=
  match calculate_all_team_scores config store with
  | Some R => R
  | None => []
  end.

Definition stat_of (T : TeamScores) (t c : string) : Stat :=
  match get_stat T t c with
  | Some st => st
  | None => zero_stat
  end.

Definition ranking_of (config : Config) (T : TeamScores) (c : string)
  : list (string * Qc) :=
  match get c (get_category_winners config T) with
  | Some r => r
  | None => []
  end.

(** Judges and teams whose names contain the separator of [judge_key]. *)
Definition underscore_config : Config :=
  {| teams := ["Lee_Labs"; "Labs"];
     judges := ["Sam"; "Sam_Lee"];
     categories := categories demo_config |}.

Definition underscore_store : ScoreStore :=
  save_action "Sam_Lee" "Labs" [("Tech", [("crit", 4)])] "" "2025-01-01 00:00:02"
    (save_action "Sam" "Lee_Labs" [("Tech", [("crit", 9)])] "" "2025-01-01 00:00:01"
       []).

(** ** Team navigation and the scoring form ([judge_teams]) *)

(** [l[i]] on a Python list: negative positions count from the end,
    other positions outside the list raise [IndexError]. *)
Definition list_index {A : Type} (l : list A) (i : Z) : option A :=
  let n := Z.of_nat (List.length l) in
  if 0 <=? i then nth_error l (Z.to_nat i)
  else if - n <=? i then nth_error l (Z.to_nat (n + i))
  else None.

(** [max(0, min(team_index, len(teams) - 1))] *)
Definition clamp_team_index (teams : list string) (team_index : Z) : Z :=
  Z.max 0 (Z.min team_index (Z.of_nat (List.length teams) - 1)).

(** The "Previous Team" button: rendered only when [team_index > 0];
    pressing it stores [team_index - 1]. *)
Definition prev_team (team_index : Z) : option Z :=
  if 0 <? team_index then Some (team_index - 1) else None.

(** The "Next Team" button: rendered only when
    [team_index < len(teams) - 1]; pressing it stores [team_index + 1]. *)
Definition next_team (teams : list string) (team_index : Z) : option Z :=
  if team_index <? Z.of_nat (List.length teams) - 1
  then Some (team_index + 1) else None.

(** The form: [value category criterion] is what the slider of that
    criterion returns. *)
Definition collect_category (value : string -> string -> Z) (category : Category)
  : dict Z :=
  fold_left
    (fun category_scores criterion =>
       set (crit_name criterion)
           (value (cat_name category) (crit_name criterion))
           category_scores)
    (criteria category) [].

Definition collect_form (config : Config) (value : string -> string -> Z)
  : dict (dict Z) :=
  fold_left
    (fun team_scores category =>
       set (cat_name category) (collect_category value category) team_scores)
    (categories config) [].

(** The slider's contract: [min_value=0], [max_value=criterion["max_score"]]. *)
Definition slider_range (config : Config) (value : string -> string -> Z) : Prop :=
  forall cat crit,
    In cat (categories config) -> In crit (criteria cat) ->
    0 <= value (cat_name cat) (crit_name crit) <= max_score crit.

(** The names the configuration provider promises to be unique. *)
Definition unique_names (config : Config) : Prop :=
  NoDup (all_categories config) /\
  forall cat, In cat (categories config) -> NoDup (map crit_name (criteria cat)).

(** ** The score viewer ([view_scores]) *)

(** [{k: v for k, v in scores_data["scores"].items() if v["team"] == team}] *)
Definition scores_of_team (t : string) (store : ScoreStore) : ScoreStore :=
  filter (fun e => String.eqb (team (snd e)) t) (items store).

(** [d.get(k, default)] *)
Definition get_or {V : Type} (k : string) (default : V) (d : dict V) : V :=
  match get k d with
  | Some v => v
  | None => default
  end.

(** [cat_name in data["scores"] and crit_name in data["scores"][cat_name]] *)
Definition has_criterion (cat crit : string) (data : Submission) : bool :=
  mem cat (scores data) &&
  match get cat (scores data) with
  | Some cs => mem crit cs
  | None => false
  end.

(** The empty dictionary [{}] of criterion scores. *)
Definition no_scores : dict Z := [].

(** The list [scores] of one criterion. *)
Definition criterion_scores (cat crit : string) (team_scores : ScoreStore)
  : list Z :=
  map (fun data => get_or crit 0 (get_or cat no_scores (scores data)))
      (filter (has_criterion cat crit) (values team_scores)).

(** [sum(scores) / len(scores)] if [scores] else [0] *)
Definition average (l : list Z) : option Qc :=
  match l with
  | [] => Some (Z2Qc 0)
  | _ => true_div (Z2Qc (sum l)) (Z2Qc (Z.of_nat (List.length l)))
  end.

(** The loop "Organize scores by category and criterion". *)
Definition avg_scores_category (team_scores : ScoreStore)
    (avg_scores : dict (dict Qc)) (category : Category)
  : option (dict (dict Qc)) :=
  for_each
    (fun acc criterion =>
       a <- average (criterion_scores (cat_name category) (crit_name criterion)
                       team_scores) ;;
       Some (update (cat_name category) (set (crit_name criterion) a) acc))
    (criteria category)
    (set (cat_name category) [] avg_scores).

Definition avg_scores (config : Config) (team_scores : ScoreStore)
  : option (dict (dict Qc)) :=
  for_each (avg_scores_category team_scores) (categories config) [].

(** [sum(cat_scores.values())] over numbers. *)
Definition fsum (l : list Qc) : Qc := fold_left Qcplus l (Z2Qc 0).

(** The argument of [st.progress]:
    [score / max if max > 0 else 0]. *)
Definition progress_value (score : Qc) (cmax : Z) : option Qc :=
  if 0 <? cmax then true_div score (Z2Qc cmax) else Some (Z2Qc 0).

(** ** Progress metrics and podium ([view_leaderboard]) *)

(** [len(set(...))] *)
Definition count_distinct (l : list string) : nat :=
  List.length (nodup string_dec l).

Definition judged_teams (store : ScoreStore) : nat :=
  count_distinct (map (fun data => team data) (values store)).

Definition judges_participated (store : ScoreStore) : nat :=
  count_distinct (map (fun data => judge data) (values store)).

Definition total_scores (store : ScoreStore) : nat := List.length store.



Inductive Medal : Type := Gold | Silver | Bronze.

(** ["gold" if i == 0 else "silver" if i == 1 else "bronze"] *)
Definition medal_of (i : nat) : Medal :=
  match i with
  | O => Gold
  | S O => Silver
  | _ => Bronze
  end.

(** The cards of the top teams: rank [i + 1], medal and [winners[i]] for
    [i in range(min(3, len(winners)))]. *)
Definition podium {A : Type} (winners : list A) : option (list (nat * Medal * A)) :=
  let top_teams := Nat.min 3 (List.length winners) in
  for_each
    (fun cards i =>
       w <- nth_error winners i ;;
       Some (cards ++ [(S i, medal_of i, w)]))
    (seq 0 top_teams) [].

(** ** More specification-level notions *)

(** Row and column names of a table. *)
Definition shape {V : Type} (T : dict (dict V)) : list (string * list string) :=
  map (fun e => (fst e, keys (snd e))) T.

(** Submission [data] is for team [t] and scores category [c]. *)
Definition scores_category (t c : string) (data : Submission) : bool :=
  String.eqb (team data) t && mem c (scores data).

(** The submissions of a store are well-formed dictionaries. *)
Definition unique_categories (store : ScoreStore) : Prop :=
  forall e, In e store -> NoDup (keys (scores (snd e))).

(** Every category score contributed to [(t, c)] lies in [[lo, hi]]. *)
Definition contribs_within (lo hi : Z) (t c : string) (store : ScoreStore) : Prop :=
  Forall (fun s => lo <= s <= hi) (contribs t c store).

(** Every submission was collected by the form of this configuration. *)
Definition form_store (config : Config) (store : ScoreStore) : Prop :=
  forall e, In e store ->
    exists value,
      slider_range config value /\ scores (snd e) = collect_form config value.

Definition demo_value (v : Z) : string -> string -> Z := fun _ _ => v.

Definition form_sub (j t : string) (v : Z) : Submission :=
  {| judge := j; team := t; scores := collect_form demo_config (demo_value v);
     notes := ""; timestamp := "2025-01-01 00:00:00" |}.

Definition form_judges : ScoreStore :=
  [("J1_Alpha", form_sub "J1" "Alpha" 6); ("J2_Alpha", form_sub "J2" "Alpha" 10)].

(** The submission [data] with other category scores. *)
Definition with_scores (data : Submission) (its : dict (dict Z)) : Submission :=
  {| judge := judge data; team := team data; scores := its;
     notes := notes data; timestamp := timestamp data |}.

(** No statistic is recorded for category [c]. *)
Definition no_column (c : string) (T : TeamScores) : Prop :=
  forall t, get_stat T t c = None.

Definition standing_team (x : Standing) : string := fst (fst x).

(** All statistics of a table, row by row. *)
Definition all_stats (T : TeamScores) : list Stat :=
  flat_map (fun team_data => values team_data) (values T).

(** Every judged statistic of the table has its percentage in [[lo, hi]]. *)
Definition percentages_within (lo hi : Qc) (T : TeamScores) : Prop :=
  Forall (fun st => (lo <= percentage st)%Qc /\ (percentage st <= hi)%Qc)
         (filter judged (all_stats T)).

(** Cards numbered from rank [i + 1]. *)
Fixpoint cards_from {A : Type} (i : nat) (ws : list A) : list (nat * Medal * A) :=
  match ws with
  | [] => []
  | w :: ws' => (S i, medal_of i, w) :: cards_from (S i) ws'
  end.

(** The stored team index selects a team. *)
Definition valid_team_index (teams : list string) (i : Z) : Prop :=
  clamp_team_index teams i = i /\ exists t, list_index teams i = Some t.

Definition three_teams : list string := ["Alpha"; "Beta"; "Gamma"].

(** The mean of a list of integers, 0 for the empty list. *)
Definition mean (l : list Z) : Qc :=
  match l with
  | [] => Z2Qc 0
  | _ => (Z2Qc (sum l) / Z2Qc (Z.of_nat (List.length l)))%Qc
  end.

(** The averages of one category as the score viewer lays them out. *)
Definition criterion_averages (team_scores : ScoreStore) (cat : Category)
  : dict Qc :=
  map (fun crit =>
         (crit_name crit,
          mean (criterion_scores (cat_name cat) (crit_name crit) team_scores)))
      (criteria cat).

(** Submission [data] scores category [cat] on exactly its configured
    criteria, as a submission collected by the form does. *)
Definition complete_for (cat : Category) (data : Submission) : Prop :=
  NoDup (keys (scores data)) /\
  exists cs,
    get (cat_name cat) (scores data) = Some cs /\
    keys cs = map crit_name (criteria cat).

Definition standings_of (T : TeamScores) : list Standing :=
  match overall_standings T with
  | Some r => r
  | None => []
  end.

Definition no_standing : Standing := (EmptyString, Z2Qc 0, 0).

(** The category scores of [demo_sub] split around an entry for a
    category the scenario does not configure. *)
Definition design_scores : dict Z := [("look", 3)].

(** The name contains the separator of [judge_key]. *)
Fixpoint has_underscore (s : string) : bool :=
  match s with
  | EmptyString => false
  | String c s' => Ascii.eqb c "_"%char || has_underscore s'
  end.

(** The submissions the viewer shows for team [t]. *)
Definition team_submissions (t : string) (store : ScoreStore) : list Submission :=
  values (scores_of_team t store).

(** * Properties *)

(** ** Dictionaries *)

Section DictFacts.
Context {V : Type}.
Implicit Types (d : dict V) (k : string).

Lemma get_set_eq k (v : V) d : get k (set k v d) = Some v.
Proof.
  induction d as [|[k' v'] d IH]; simpl.
  - now rewrite String.eqb_refl.
  - destruct (String.eqb k k') eqn:E; simpl.
    + now rewrite String.eqb_refl.
    + now rewrite E.
Qed.

Lemma get_set_neq k k' (v : V) d :
  k <> k' -> get k' (set k v d) = get k' d.
Proof.
  intros Hne.
  induction d as [|[k0 v0] d IH]; simpl.
  - destruct (String.eqb k' k) eqn:E; auto.
    apply String.eqb_eq in E. congruence.
  - destruct (String.eqb k k0) eqn:E; simpl.
    + apply String.eqb_eq in E. subst k0.
      destruct (String.eqb k' k) eqn:E'; auto.
      apply String.eqb_eq in E'. congruence.
    + now rewrite IH.
Qed.

Lemma get_set k k' (v : V) d :
  get k' (set k v d) = if String.eqb k k' then Some v else get k' d.
Proof.
  destruct (String.eqb k k') eqn:E.
  - apply String.eqb_eq in E. subst. apply get_set_eq.
  - apply String.eqb_neq in E. now apply get_set_neq.
Qed.

Lemma get_update k k' (f : V -> V) d :
  get k' (update k f d)
  = if String.eqb k k' then option_map f (get k d) else get k' d.
Proof.
  induction d as [|[k0 v0] d IH]; simpl.
  - now destruct (String.eqb k k').
  - destruct (String.eqb k k0) eqn:E; simpl.
    + apply String.eqb_eq in E. subst k0.
      rewrite (String.eqb_sym k' k).
      now destruct (String.eqb k k').
    + rewrite IH. destruct (String.eqb k k') eqn:E'; auto.
      apply String.eqb_eq in E'. subst k'.
      now rewrite E.
Qed.

Lemma keys_update k (f : V -> V) d : keys (update k f d) = keys d.
Proof.
  unfold keys.
  induction d as [|[k0 v0] d IH]; simpl; auto.
  destruct (String.eqb k k0); simpl; auto.
  now rewrite IH.
Qed.

Lemma get_Some_In_keys k d (v : V) : get k d = Some v -> In k (keys d).
Proof.
  induction d as [|[k0 v0] d IH]; simpl; [discriminate|].
  destruct (String.eqb k k0) eqn:E.
  - apply String.eqb_eq in E. auto.
  - auto.
Qed.

Lemma get_None_not_In k d : get k d = None <-> ~ In k (keys d).
Proof.
  induction d as [|[k0 v0] d IH]; simpl.
  - tauto.
  - destruct (String.eqb k k0) eqn:E.
    + apply String.eqb_eq in E. split; [discriminate | intros H; exfalso; auto].
    + apply String.eqb_neq in E. rewrite IH. split.
      * intros H [H1 | H1]; auto.
      * intros H H1. auto.
Qed.

Lemma mem_true_iff k d : mem k d = true <-> In k (keys d).
Proof.
  unfold mem. destruct (get k d) eqn:E.
  - split; auto. intros _. eapply get_Some_In_keys; eauto.
  - apply get_None_not_In in E. split; [discriminate | tauto].
Qed.

Lemma mem_get k d : mem k d = true -> exists v, get k d = Some v.
Proof.
  unfold mem. destruct (get k d); [eauto | discriminate].
Qed.

Lemma keys_set k (v : V) d :
  keys (set k v d) = if mem k d then keys d else keys d ++ [k].
Proof.
  unfold mem, keys.
  induction d as [|[k0 v0] d IH]; simpl; auto.
  destruct (String.eqb k k0) eqn:E; simpl.
  - apply String.eqb_eq in E. now subst.
  - rewrite IH. now destruct (get k d).
Qed.

Lemma update_set k (f : V -> V) (v : V) d :
  update k f (set k v d) = set k (f v) d.
Proof.
  induction d as [|[k0 v0] d IH]; simpl.
  - now rewrite String.eqb_refl.
  - destruct (String.eqb k k0) eqn:E; simpl.
    + now rewrite String.eqb_refl.
    + now rewrite E, IH.
Qed.

Lemma get_fold_set (F : string -> V) k : forall (l : list string) d,
  get k (fold_left (fun d' k' => set k' (F k') d') l d)
  = if in_dec string_dec k l then Some (F k) else get k d.
Proof.
  induction l as [|k0 l IH]; intros d; cbn [fold_left].
  - reflexivity.
  - rewrite IH.
    destruct (in_dec string_dec k l) as [Hin|Hnin];
      destruct (in_dec string_dec k (k0 :: l)) as [Hin'|Hnin']; auto.
    + exfalso. apply Hnin'. now right.
    + destruct Hin' as [->|Hin']; [apply get_set_eq | contradiction].
    + apply get_set_neq. intros ->. apply Hnin'. now left.
Qed.

End DictFacts.

(** ** The error monad *)

Lemma for_each_app {S A : Type} (body : S -> A -> option S) l1 l2 s :
  for_each body (l1 ++ l2) s = s' <- for_each body l1 s ;; for_each body l2 s'.
Proof.
  revert s. induction l1 as [|x l1 IH]; intros s; simpl; auto.
  destruct (body s x); simpl; auto.
Qed.

(** ** Numbers *)

Lemma sum_from (l : list Z) (a : Z) : fold_left Z.add l a = a + sum l.
Proof.
  unfold sum. revert a.
  induction l as [|x l IH]; intros a; simpl; [lia|].
  rewrite IH, (IH x). lia.
Qed.

Lemma sum_cons (x : Z) (l : list Z) : sum (x :: l) = x + sum l.
Proof. unfold sum at 1. simpl. now rewrite sum_from. Qed.

Lemma sum_app (l1 l2 : list Z) : sum (l1 ++ l2) = sum l1 + sum l2.
Proof.
  induction l1 as [|x l1 IH]; simpl; auto.
  rewrite !sum_cons, IH. lia.
Qed.

Lemma sum_Permutation (l1 l2 : list Z) : Permutation l1 l2 -> sum l1 = sum l2.
Proof.
  induction 1; auto; rewrite ?sum_cons in *; lia.
Qed.

Lemma Z2Qc_add (a b : Z) : Z2Qc (a + b) = (Z2Qc a + Z2Qc b)%Qc.
Proof.
  apply Qc_is_canon. unfold Z2Qc, Qcplus, Q2Qc; cbn [this].
  rewrite !Qred_correct. rewrite inject_Z_plus. reflexivity.
Qed.

Lemma Z2Qc_inj (a b : Z) : Z2Qc a = Z2Qc b -> a = b.
Proof.
  intros H. unfold Z2Qc in H.
  assert (E : (Q2Qc (inject_Z a) == Q2Qc (inject_Z b))%Q) by now rewrite H.
  unfold Q2Qc in E; cbn [this] in E. rewrite !Qred_correct in E.
  apply inject_Z_injective. exact E.
Qed.

Lemma Z2Qc_nonzero (n : Z) : n <> 0 -> Z2Qc n <> Z2Qc 0.
Proof. intros H E. apply Z2Qc_inj in E. contradiction. Qed.

Lemma Z2Qc_0 : Z2Qc 0 = 0%Qc.
Proof. apply Qc_is_canon. reflexivity. Qed.

Lemma Z2Qc_1 : Z2Qc 1 = 1%Qc.
Proof. apply Qc_is_canon. reflexivity. Qed.

Lemma true_div_ok (a b : Qc) : b <> Z2Qc 0 -> true_div a b = Some (a / b)%Qc.
Proof.
  intros H. unfold true_div. destruct (Qc_eq_dec b (Z2Qc 0)); [contradiction | auto].
Qed.

(** ** One cell *)

Lemma update_stat_step (cmax cscore : Z) (st : Stat) :
  0 <= judges_count st ->
  update_stat cmax cscore st = Some (step cmax cscore st).
Proof.
  intros Hn. unfold update_stat, step.
  rewrite true_div_ok by (apply Z2Qc_nonzero; lia).
  cbn [bind].
  destruct (0 <? cmax) eqn:E.
  - apply Z.ltb_lt in E.
    rewrite true_div_ok by (apply Z2Qc_nonzero; lia).
    reflexivity.
  - reflexivity.
Qed.

Lemma run_app cmax l1 l2 st : run cmax (l1 ++ l2) st = run cmax l2 (run cmax l1 st).
Proof. unfold run. apply fold_left_app. Qed.

Lemma run_count cmax l st :
  judges_count (run cmax l st) = judges_count st + Z.of_nat (List.length l).
Proof.
  revert st. induction l as [|s l IH]; intros st.
  - simpl. lia.
  - change (run cmax (s :: l) st) with (run cmax l (step cmax s st)).
    rewrite IH. cbn [step judges_count List.length]. lia.
Qed.

(** The running average times the count is the running sum. *)
Lemma step_avg cmax s st :
  0 <= judges_count st ->
  (avg_score (step cmax s st) * Z2Qc (judges_count st + 1)
   = avg_score st * Z2Qc (judges_count st) + Z2Qc s)%Qc.
Proof.
  intros Hn. cbn [step avg_score].
  replace (judges_count st + 1 - 1) with (judges_count st) by lia.
  assert (H : Z2Qc (judges_count st + 1) <> 0%Qc).
  { rewrite <- Z2Qc_0. apply Z2Qc_nonzero. lia. }
  field. exact H.
Qed.

Lemma run_avg cmax l st :
  0 <= judges_count st ->
  (avg_score (run cmax l st) * Z2Qc (judges_count (run cmax l st))
   = avg_score st * Z2Qc (judges_count st) + Z2Qc (sum l))%Qc.
Proof.
  revert st. induction l as [|s l IH]; intros st Hn.
  - cbn. rewrite Z2Qc_0. ring.
  - change (run cmax (s :: l) st) with (run cmax l (step cmax s st)).
    rewrite IH by (cbn; lia).
    cbn [step judges_count]. rewrite (step_avg cmax s st Hn).
    rewrite sum_cons, Z2Qc_add. ring.
Qed.

(** ** The loops of [calculate_all_team_scores] *)

Section EngineFacts.

Variable config : Config.

Lemma get_stat_update_set (T : TeamScores) tm c v cats t' c' :
  get tm T = Some cats ->
  get_stat (update tm (set c v) T) t' c'
  = if String.eqb tm t' && String.eqb c c' then Some v else get_stat T t' c'.
Proof.
  intros Hg. unfold get_stat. rewrite get_update.
  destruct (String.eqb tm t') eqn:E; cbn [andb]; auto.
  apply String.eqb_eq in E. subst t'. rewrite Hg. cbn.
  rewrite get_set. destruct (String.eqb c c'); auto.
Qed.

Lemma process_category_spec (T : TeamScores) tm c cs :
  counts_ok T -> mem tm T = true ->
  exists T',
    process_category config tm T (c, cs) = Some T' /\
    keys T' = keys T /\
    forall t' c',
      get_stat T' t' c'
      = if String.eqb tm t' && String.eqb c c'
        then option_map (step (category_max config c) (sum (values cs)))
                        (get_stat T t' c')
        else get_stat T t' c'.
Proof.
  intros Hok Hmem. apply mem_get in Hmem. destruct Hmem as [cats Hcats].
  unfold process_category. rewrite Hcats. cbn [bind].
  unfold mem. destruct (get c cats) as [current|] eqn:Hcur; cbn [negb bind].
  - assert (Hn : 0 <= judges_count current).
    { apply (Hok tm c). unfold get_stat. rewrite Hcats. exact Hcur. }
    unfold category_score. rewrite (update_stat_step _ _ _ Hn). cbn [bind].
    eexists. split; [reflexivity|]. split; [apply keys_update|].
    intros t' c'. rewrite (get_stat_update_set _ _ _ _ _ _ _ Hcats).
    destruct (String.eqb tm t' && String.eqb c c') eqn:E; auto.
    apply andb_prop in E. destruct E as [E1 E2].
    apply String.eqb_eq in E1, E2. subst t' c'.
    unfold get_stat. rewrite Hcats. cbn. now rewrite Hcur.
  - exists T. split; [reflexivity|]. split; [reflexivity|].
    intros t' c'.
    destruct (String.eqb tm t' && String.eqb c c') eqn:E; auto.
    apply andb_prop in E. destruct E as [E1 E2].
    apply String.eqb_eq in E1, E2. subst t' c'.
    unfold get_stat. rewrite Hcats. cbn. now rewrite Hcur.
Qed.

Lemma counts_ok_option_map (T T' : TeamScores) (f : string -> string -> Stat -> Stat) :
  counts_ok T ->
  (forall t c st, 0 <= judges_count st -> 0 <= judges_count (f t c st)) ->
  (forall t c, get_stat T' t c = option_map (f t c) (get_stat T t c)) ->
  counts_ok T'.
Proof.
  intros Hok Hf Hget t c st' H. rewrite Hget in H.
  destruct (get_stat T t c) as [st|] eqn:E; [|discriminate].
  cbn in H. injection H as <-. apply Hf. eapply Hok; eauto.
Qed.

Lemma keys_mem (T T' : TeamScores) t :
  keys T' = keys T -> mem t T' = mem t T.
Proof.
  intros Hk. destruct (mem t T) eqn:E.
  - apply mem_true_iff. rewrite Hk. now apply mem_true_iff.
  - destruct (mem t T') eqn:E'; auto.
    apply mem_true_iff in E'. rewrite Hk in E'. apply mem_true_iff in E'. congruence.
Qed.

Lemma process_categories_spec its : forall (T : TeamScores) tm,
  counts_ok T -> mem tm T = true ->
  exists T',
    for_each (process_category config tm) its T = Some T' /\
    keys T' = keys T /\
    forall t' c',
      get_stat T' t' c'
      = option_map
          (run (category_max config c')
               (if String.eqb tm t' then cat_contribs c' its else []))
          (get_stat T t' c').
Proof.
  induction its as [|[c cs] its IH]; intros T tm Hok Hmem.
  - exists T. split; [reflexivity|]. split; [reflexivity|].
    intros t' c'. cbn. destruct (String.eqb tm t'); cbn;
      now destruct (get_stat T t' c').
  - destruct (process_category_spec T tm c cs Hok Hmem) as (T1 & H1 & Hk1 & Hg1).
    assert (Hok1 : counts_ok T1).
    { intros t0 c0 st0 H0. rewrite Hg1 in H0.
      destruct (String.eqb tm t0 && String.eqb c c0).
      - destruct (get_stat T t0 c0) as [st|] eqn:E; [|discriminate].
        cbn in H0. injection H0 as <-. cbn. apply Hok in E. lia.
      - eapply Hok; eauto. }
    assert (Hmem1 : mem tm T1 = true) by (rewrite (keys_mem _ _ _ Hk1); exact Hmem).
    destruct (IH T1 tm Hok1 Hmem1) as (T2 & H2 & Hk2 & Hg2).
    exists T2. split; [|split].
    + cbn [for_each]. rewrite H1. exact H2.
    + congruence.
    + intros t' c'. rewrite Hg2, Hg1.
      cbn [cat_contribs flat_map fst snd].
      destruct (String.eqb tm t') eqn:Et; cbn [andb].
      * destruct (String.eqb c c') eqn:Ec.
        -- apply String.eqb_eq in Ec. subst c'.
           destruct (get_stat T t' c); cbn; auto.
        -- cbn. reflexivity.
      * reflexivity.
Qed.

Lemma process_submission_spec (T : TeamScores) e :
  counts_ok T ->
  exists T',
    process_submission config T e = Some T' /\
    keys T' = keys T /\
    forall t c,
      get_stat T' t c
      = option_map
          (run (category_max config c)
               (if String.eqb (team (snd e)) t
                then cat_contribs c (scores (snd e)) else []))
          (get_stat T t c).
Proof.
  intros Hok. unfold process_submission.
  destruct (mem (team (snd e)) T) eqn:Hmem; cbn [negb].
  - apply process_categories_spec; auto.
  - exists T. split; [reflexivity|]. split; [reflexivity|].
    intros t c. destruct (String.eqb (team (snd e)) t) eqn:Et.
    + apply String.eqb_eq in Et. subst t.
      unfold get_stat, mem in *.
      destruct (get (team (snd e)) T); [discriminate | reflexivity].
    + cbn. now destruct (get_stat T t c).
Qed.

Lemma run_counts_ok (T T' : TeamScores) (l : string -> string -> list Z) :
  counts_ok T ->
  (forall t c, get_stat T' t c
               = option_map (run (category_max config c) (l t c)) (get_stat T t c)) ->
  counts_ok T'.
Proof.
  intros Hok Hget.
  apply (counts_ok_option_map T T'
           (fun t c => run (category_max config c) (l t c))); auto.
  intros t c st Hst. rewrite run_count. lia.
Qed.

Lemma process_submissions_spec store : forall (T : TeamScores),
  counts_ok T ->
  exists T',
    for_each (process_submission config) store T = Some T' /\
    keys T' = keys T /\
    forall t c,
      get_stat T' t c
      = option_map (run (category_max config c) (contribs t c store))
                   (get_stat T t c).
Proof.
  induction store as [|e store IH]; intros T Hok.
  - exists T. split; [reflexivity|]. split; [reflexivity|].
    intros t c. cbn. now destruct (get_stat T t c).
  - destruct (process_submission_spec T e Hok) as (T1 & H1 & Hk1 & Hg1).
    assert (Hok1 : counts_ok T1).
    { apply (run_counts_ok T T1
               (fun t c => if String.eqb (team (snd e)) t
                           then cat_contribs c (scores (snd e)) else []));
        assumption. }
    destruct (IH T1 Hok1) as (T2 & H2 & Hk2 & Hg2).
    exists T2. split; [|split].
    + cbn [for_each]. rewrite H1. exact H2.
    + congruence.
    + intros t c. rewrite Hg2, Hg1.
      change (contribs t c (e :: store))
        with ((if String.eqb (team (snd e)) t
               then cat_contribs c (scores (snd e)) else [])
              ++ contribs t c store).
      destruct (get_stat T t c); cbn [option_map]; auto.
      now rewrite run_app.
Qed.

(** *** The initial table *)

Lemma init_team_set (T : TeamScores) tm :
  init_team config T tm = set tm (init_categories config) T.
Proof.
  unfold init_team, init_categories.
  generalize (@nil (string * Stat)) as d.
  induction (all_categories config) as [|c cats IH]; intros d; cbn [fold_left].
  - reflexivity.
  - rewrite update_set. apply IH.
Qed.

Lemma get_init_categories c :
  get c (init_categories config)
  = if in_dec string_dec c (all_categories config) then Some zero_stat else None.
Proof.
  unfold init_categories.
  apply (get_fold_set (fun _ => zero_stat)).
Qed.

Lemma get_init_scores t :
  get t (init_scores config)
  = if in_dec string_dec t (teams config)
    then Some (init_categories config) else None.
Proof.
  unfold init_scores.
  assert (G : forall l (T : TeamScores),
             get t (fold_left (init_team config) l T)
             = if in_dec string_dec t l
               then Some (init_categories config) else get t T).
  { induction l as [|t0 l IH]; intros T; cbn [fold_left].
    - reflexivity.
    - rewrite IH, init_team_set.
      destruct (in_dec string_dec t l) as [Hin|Hnin];
        destruct (in_dec string_dec t (t0 :: l)) as [Hin'|Hnin']; auto.
      + exfalso. apply Hnin'. now right.
      + destruct Hin' as [->|Hin']; [apply get_set_eq | contradiction].
      + apply get_set_neq. intros ->. apply Hnin'. now left. }
  apply G.
Qed.

Lemma get_stat_init t c :
  get_stat (init_scores config) t c
  = if in_dec string_dec t (teams config)
    then if in_dec string_dec c (all_categories config)
         then Some zero_stat else None
    else None.
Proof.
  unfold get_stat. rewrite get_init_scores.
  destruct (in_dec string_dec t (teams config)); cbn; auto.
  apply get_init_categories.
Qed.

Lemma counts_ok_init : counts_ok (init_scores config).
Proof.
  intros t c st H. rewrite get_stat_init in H.
  destruct (in_dec string_dec t (teams config)); [|discriminate].
  destruct (in_dec string_dec c (all_categories config)); [|discriminate].
  injection H as <-. cbn. lia.
Qed.

Lemma mem_set {V : Type} k k' (v : V) (d : dict V) :
  mem k' (set k v d) = String.eqb k k' || mem k' d.
Proof.
  unfold mem. rewrite get_set. now destruct (String.eqb k k').
Qed.

Lemma filter_filter {A : Type} (f g : A -> bool) (l : list A) :
  filter f (filter g l) = filter (fun x => g x && f x) l.
Proof.
  induction l as [|x l IH]; cbn; auto.
  destruct (g x); cbn; [destruct (f x)|]; now rewrite IH.
Qed.

Lemma keys_init_from l : forall (T : TeamScores),
  keys (fold_left (init_team config) l T)
  = keys T ++ filter (fun y => negb (mem y T)) (dedup_first l).
Proof.
  induction l as [|x l IH]; intros T; cbn [fold_left dedup_first].
  - cbn. now rewrite app_nil_r.
  - rewrite IH, init_team_set, keys_set. cbn [filter].
    rewrite filter_filter.
    destruct (mem x T) eqn:Hx; cbn [negb].
    + f_equal. apply filter_ext. intros y. rewrite mem_set.
      now destruct (String.eqb x y), (mem y T).
    + rewrite <- app_assoc. cbn [app]. do 2 f_equal.
      apply filter_ext. intros y. rewrite mem_set.
      now destruct (String.eqb x y), (mem y T).
Qed.

Lemma keys_init_scores : keys (init_scores config) = dedup_first (teams config).
Proof.
  unfold init_scores. rewrite keys_init_from. cbn.
  induction (dedup_first (teams config)) as [|x l IH]; cbn; congruence.
Qed.

(** *** The whole function *)

Lemma calculate_unfold store :
  calculate_all_team_scores config store
  = for_each (process_submission config) store (init_scores config).
Proof. now destruct store. Qed.

Lemma calculate_spec store :
  exists R,
    calculate_all_team_scores config store = Some R /\
    keys R = dedup_first (teams config) /\
    forall t c,
      get_stat R t c
      = if in_dec string_dec t (teams config)
        then if in_dec string_dec c (all_categories config)
             then Some (run (category_max config c) (contribs t c store) zero_stat)
             else None
        else None.
Proof.
  destruct (process_submissions_spec store _ counts_ok_init) as (R & H & Hk & Hg).
  exists R. rewrite calculate_unfold. split; [exact H|].
  split; [now rewrite Hk, keys_init_scores|].
  intros t c. rewrite Hg, get_stat_init.
  destruct (in_dec string_dec t (teams config)); auto.
  destruct (in_dec string_dec c (all_categories config)); auto.
Qed.

End EngineFacts.

(** ** Cells after a run of contributions *)

Lemma run_snoc cmax l s st : run cmax (l ++ [s]) st = step cmax s (run cmax l st).
Proof. now rewrite run_app. Qed.

Lemma run_mean cmax l :
  l <> [] ->
  avg_score (run cmax l zero_stat)
  = (Z2Qc (sum l) / Z2Qc (Z.of_nat (List.length l)))%Qc.
Proof.
  intros Hl.
  pose proof (run_avg cmax l zero_stat) as H.
  rewrite run_count in H. cbn [zero_stat judges_count avg_score] in H.
  specialize (H (Z.le_refl 0)). rewrite Z.add_0_l in H.
  assert (Hn : Z2Qc (Z.of_nat (List.length l)) <> 0%Qc).
  { rewrite <- Z2Qc_0. apply Z2Qc_nonzero. destruct l; [congruence | cbn; lia]. }
  rewrite Z2Qc_0 in H.
  transitivity (avg_score (run cmax l zero_stat)
                * Z2Qc (Z.of_nat (List.length l))
                / Z2Qc (Z.of_nat (List.length l)))%Qc.
  - field. exact Hn.
  - rewrite H. field. exact Hn.
Qed.

Lemma run_judged cmax l st :
  l <> [] ->
  total_possible (run cmax l st) = cmax /\
  percentage (run cmax l st)
  = if 0 <? cmax
    then (avg_score (run cmax l st) / Z2Qc cmax * Z2Qc 100)%Qc
    else Z2Qc 0.
Proof.
  intros Hl. destruct (exists_last Hl) as (l' & s & ->).
  rewrite run_snoc. split; reflexivity.
Qed.



Lemma cat_contribs_absent c its : ~ In c (keys its) -> cat_contribs c its = [].
Proof.
  induction its as [|[c0 cs0] its IH]; cbn; auto.
  intros H. destruct (String.eqb c0 c) eqn:E.
  - apply String.eqb_eq in E. exfalso. auto.
  - cbn. apply IH. auto.
Qed.

Lemma cat_contribs_unique c cs its :
  NoDup (keys its) -> get c its = Some cs ->
  cat_contribs c its = [sum (values cs)].
Proof.
  induction its as [|[c0 cs0] its IH]; cbn; [discriminate|].
  intros Hnd Hg. inversion Hnd as [|? ? Hnin Hnd']; subst.
  rewrite (String.eqb_sym c0 c).
  destruct (String.eqb c c0) eqn:E.
  - apply String.eqb_eq in E. subst c0. injection Hg as ->.
    cbn. f_equal. fold (cat_contribs c its). now apply cat_contribs_absent.
  - cbn. apply IH; auto.
Qed.

Lemma contribs_app t c s1 s2 :
  contribs t c (s1 ++ s2) = contribs t c s1 ++ contribs t c s2.
Proof. unfold contribs. apply flat_map_app. Qed.

Lemma contribs_Permutation t c s1 s2 :
  Permutation s1 s2 -> Permutation (contribs t c s1) (contribs t c s2).
Proof. intros H. unfold contribs. now apply Permutation_flat_map. Qed.

Lemma mem_init_scores config t :
  ~ In t (teams config) -> mem t (init_scores config) = false.
Proof.
  intros H. unfold mem. rewrite get_init_scores.
  destruct (in_dec string_dec t (teams config)); [contradiction | reflexivity].
Qed.

Lemma get_stat_calculated config store R t c :
  calculate_all_team_scores config store = Some R ->
  In t (teams config) -> In c (all_categories config) ->
  get_stat R t c
  = Some (run (category_max config c) (contribs t c store) zero_stat).
Proof.
  intros HR Ht Hc.
  destruct (calculate_spec config store) as (R' & HR' & _ & Hg).
  rewrite HR in HR'. injection HR' as <-. rewrite Hg.
  destruct (in_dec string_dec t (teams config)); [|contradiction].
  destruct (in_dec string_dec c (all_categories config)); [|contradiction].
  reflexivity.
Qed.

Lemma get_stat_calculated_inv config store R t c st :
  calculate_all_team_scores config store = Some R ->
  get_stat R t c = Some st ->
  In t (teams config) /\ In c (all_categories config) /\
  st = run (category_max config c) (contribs t c store) zero_stat.
Proof.
  intros HR Hst.
  destruct (calculate_spec config store) as (R' & HR' & _ & Hg).
  rewrite HR in HR'. injection HR' as <-. rewrite Hg in Hst.
  destruct (in_dec string_dec t (teams config)); [|discriminate].
  destruct (in_dec string_dec c (all_categories config)); [|discriminate].
  injection Hst as <-. auto.
Qed.

(** * The claims about [calculate_all_team_scores] *)

(** C1. For a configured team/category pair whose submissions contribute
    the category scores [s1 .. sn] (n > 0), the function returns, the pair's
    [judges_count] is [n], its [avg_score] is [sum(s_i) / n], and the same
    average results from every other iteration order of the store. *)
Theorem incremental_mean_order_independent
    (config : Config) (store store' : ScoreStore) (t c : string) :
  In t (teams config) -> In c (all_categories config) ->
  Permutation store store' ->
  contribs t c store <> [] ->
  exists R R' st st',
    calculate_all_team_scores config store = Some R /\
    calculate_all_team_scores config store' = Some R' /\
    get_stat R t c = Some st /\
    get_stat R' t c = Some st' /\
    judges_count st = Z.of_nat (List.length (contribs t c store)) /\
    avg_score st
    = (Z2Qc (sum (contribs t c store))
       / Z2Qc (Z.of_nat (List.length (contribs t c store))))%Qc /\
    avg_score st' = avg_score st.
Proof.
  intros Ht Hc Hperm Hne.
  destruct (calculate_spec config store) as (R & HR & _ & _).
  destruct (calculate_spec config store') as (R' & HR' & _ & _).
  pose proof (contribs_Permutation t c _ _ Hperm) as Hp.
  assert (Hne' : contribs t c store' <> []).
  { intros E. rewrite E in Hp. apply Permutation_sym, Permutation_nil in Hp.
    contradiction. }
  exists R, R'. do 2 eexists.
  split; [exact HR|]. split; [exact HR'|].
  split; [eapply get_stat_calculated; eauto|].
  split; [eapply get_stat_calculated; eauto|].
  split; [rewrite run_count; cbn; lia|].
  split; [now apply run_mean|].
  rewrite !run_mean by assumption.
  now rewrite (sum_Permutation _ _ Hp), (Permutation_length Hp).
Qed.

(** C2. The initial table holds the zero statistic for every configured
    team and category, it is what the empty store yields, and for every
    store the result has an entry for every configured team and, under
    it, for every configured category. *)
Theorem every_configured_pair_present
    (config : Config) (store : ScoreStore) (t c : string) :
  In t (teams config) -> In c (all_categories config) ->
  get_stat (init_scores config) t c = Some zero_stat /\
  calculate_all_team_scores config [] = Some (init_scores config) /\
  exists R cats st,
    calculate_all_team_scores config store = Some R /\
    get t R = Some cats /\ get c cats = Some st.
Proof.
  intros Ht Hc. split; [|split].
  - rewrite get_stat_init.
    destruct (in_dec string_dec t (teams config)); [|contradiction].
    destruct (in_dec string_dec c (all_categories config)); [|contradiction].
    reflexivity.
  - reflexivity.
  - destruct (calculate_spec config store) as (R & HR & _ & _).
    pose proof (get_stat_calculated config store R t c HR Ht Hc) as Hg.
    unfold get_stat in Hg.
    destruct (get t R) as [cats|] eqn:E; [|discriminate].
    exists R, cats. eexists. split; [exact HR|]. split; [exact E|].
    exact Hg.
Qed.


(** C8. A submission whose team is not configured is skipped: the function
    still returns, and its result is the one it gives for the store
    without that submission. *)
Theorem unknown_team_skipped
    (config : Config) (s1 s2 : ScoreStore) (e : string * Submission) :
  ~ In (team (snd e)) (teams config) ->
  (exists R, calculate_all_team_scores config (s1 ++ e :: s2) = Some R) /\
  calculate_all_team_scores config (s1 ++ e :: s2)
  = calculate_all_team_scores config (s1 ++ s2).
Proof.
  intros Hnin.
  split; [destruct (calculate_spec config (s1 ++ e :: s2)) as (R & HR & _); eauto|].
  rewrite !calculate_unfold, !for_each_app.
  destruct (process_submissions_spec config s1 _ (counts_ok_init config))
    as (T1 & H1 & Hk1 & _).
  rewrite H1. cbn [bind for_each].
  unfold process_submission at 1.
  rewrite (keys_mem _ _ _ Hk1), (mem_init_scores config _ Hnin).
  reflexivity.
Qed.

(** C9. Appending a submission of a configured team that scores a
    configured category adds one judgement whose category score is the sum
    of all submitted values of that category, whatever their criterion
    names, while [total_possible] is the sum of the configured
    [max_score]s of the category. *)
Theorem category_score_from_submission
    (config : Config) (store : ScoreStore) (k : string) (sub : Submission)
    (c : string) (cs : dict Z) :
  In (team sub) (teams config) -> In c (all_categories config) ->
  NoDup (keys (scores sub)) -> get c (scores sub) = Some cs ->
  exists R R' st st',
    calculate_all_team_scores config store = Some R /\
    calculate_all_team_scores config (store ++ [(k, sub)]) = Some R' /\
    get_stat R (team sub) c = Some st /\
    get_stat R' (team sub) c = Some st' /\
    judges_count st' = judges_count st + 1 /\
    avg_score st'
    = ((avg_score st * Z2Qc (judges_count st) + Z2Qc (sum (values cs)))
       / Z2Qc (judges_count st + 1))%Qc /\
    total_possible st'
    = sum (flat_map
             (fun cat => if String.eqb (cat_name cat) c
                         then map max_score (criteria cat) else [])
             (categories config)).
Proof.
  intros Ht Hc Hnd Hg.
  destruct (calculate_spec config store) as (R & HR & _ & _).
  destruct (calculate_spec config (store ++ [(k, sub)])) as (R' & HR' & _ & _).
  exists R, R'. do 2 eexists.
  split; [exact HR|]. split; [exact HR'|].
  split; [eapply get_stat_calculated; eauto|].
  split; [eapply get_stat_calculated; eauto|].
  rewrite contribs_app. cbn [contribs flat_map snd].
  rewrite String.eqb_refl, app_nil_r, (cat_contribs_unique _ _ _ Hnd Hg).
  rewrite run_snoc. cbn [step judges_count avg_score total_possible].
  split; [reflexivity|]. split; [|reflexivity].
  now replace (judges_count (run (category_max config c) (contribs (team sub) c store)
                               zero_stat) + 1 - 1)
    with (judges_count (run (category_max config c) (contribs (team sub) c store)
                            zero_stat)) by lia.
Qed.

(** C10. In every result, a team/category entry with [judges_count = 0]
    has [total_possible = 0], [avg_score = 0] and [percentage = 0]; an
    entry with a positive count carries the configured category maximum. *)
Theorem unjudged_entries_are_zero
    (config : Config) (store : ScoreStore) (R : TeamScores)
    (t c : string) (st : Stat) :
  calculate_all_team_scores config store = Some R ->
  get_stat R t c = Some st ->
  (judges_count st = 0 ->
   total_possible st = 0 /\ avg_score st = Z2Qc 0 /\ percentage st = Z2Qc 0) /\
  (0 < judges_count st -> total_possible st = category_max config c).
Proof.
  intros HR Hst.
  destruct (get_stat_calculated_inv _ _ _ _ _ _ HR Hst) as (_ & _ & ->).
  rewrite run_count. cbn [zero_stat judges_count].
  split; intros Hn.
  - destruct (contribs t c store); [cbn; auto | cbn in Hn; lia].
  - apply run_judged. intros E. rewrite E in Hn. cbn in Hn. lia.
Qed.

(** ** Positions in a list *)

Section Before.
Context {A : Type}.
Implicit Types (x y a : A) (l : list A).

Lemma before_cons x y a l : before x y l -> before x y (a :: l).
Proof.
  intros (l1 & l2 & l3 & ->). now exists (a :: l1), l2, l3.
Qed.

Lemma before_head a y l : In y l -> before a y (a :: l).
Proof.
  intros H. apply in_split in H. destruct H as (l2 & l3 & ->).
  now exists [], l2, l3.
Qed.

Lemma before_cons_inv x y a l :
  before x y (a :: l) -> (x = a /\ In y l) \/ before x y l.
Proof.
  intros (l1 & l2 & l3 & H). destruct l1 as [|b l1]; cbn in H.
  - injection H as -> ->. left. split; auto.
    apply in_or_app. right. now left.
  - injection H as -> ->. right. now exists l1, l2, l3.
Qed.

Lemma before_nil x y : ~ before x y [].
Proof. intros (l1 & l2 & l3 & H). now destruct l1. Qed.

Lemma before_filter (f : A -> bool) x y l :
  before x y (filter f l) -> before x y l /\ f x = true /\ f y = true.
Proof.
  induction l as [|a l IH]; cbn; intros H.
  - now apply before_nil in H.
  - destruct (f a) eqn:Ea.
    + apply before_cons_inv in H. destruct H as [[-> Hy] | H].
      * apply filter_In in Hy. destruct Hy as [Hy Hfy].
        split; [now apply before_head | auto].
      * destruct (IH H) as (Hb & Hx & Hy). split; [now apply before_cons | auto].
    + destruct (IH H) as (Hb & Hx & Hy). split; [now apply before_cons | auto].
Qed.

End Before.

Lemma before_dedup_first_index t1 t2 l :
  before t1 t2 (dedup_first l) -> (index_of t1 l < index_of t2 l)%nat.
Proof.
  induction l as [|a l IH]; cbn [dedup_first index_of]; intros H.
  - now apply before_nil in H.
  - apply before_cons_inv in H. destruct H as [[-> Hy] | H].
    + apply filter_In in Hy. destruct Hy as [_ Hne].
      rewrite String.eqb_refl, (String.eqb_sym t2 a).
      destruct (String.eqb a t2); [discriminate | lia].
    + apply before_filter in H. destruct H as (Hb & H1 & H2).
      rewrite (String.eqb_sym t1 a), (String.eqb_sym t2 a).
      destruct (String.eqb a t1); [discriminate|].
      destruct (String.eqb a t2); [discriminate|].
      apply IH in Hb. lia.
Qed.

(** ** The stable descending sort *)

Section SortFacts.
Context {A : Type}.
Variable key : A -> Qc.

Lemma insert_desc_Permutation x l : Permutation (insert_desc key x l) (x :: l).
Proof.
  induction l as [|y l IH]; cbn; auto.
  destruct (Qle_bool (key y) (key x)); auto.
  rewrite IH. apply perm_swap.
Qed.

Lemma sort_reverse_Permutation l : Permutation (sort_reverse key l) l.
Proof.
  induction l as [|x l IH]; cbn; auto.
  rewrite insert_desc_Permutation. now constructor.
Qed.

Lemma sort_reverse_In x l : In x (sort_reverse key l) <-> In x l.
Proof.
  split; apply Permutation_in;
    [|apply Permutation_sym]; apply sort_reverse_Permutation.
Qed.

Lemma insert_desc_sorted x l :
  StronglySorted (descending key) l ->
  StronglySorted (descending key) (insert_desc key x l).
Proof.
  induction 1 as [|y l Hs IH Hy]; cbn.
  - repeat constructor.
  - destruct (Qle_bool (key y) (key x)) eqn:E.
    + apply Qle_bool_iff in E.
      constructor; [now constructor|].
      constructor; [exact E|].
      eapply Forall_impl; [|exact Hy].
      intros z Hz. unfold descending in *. eapply Qcle_trans; eauto.
    + constructor; [exact IH|].
      apply (Permutation_Forall (Permutation_sym (insert_desc_Permutation x l))).
      constructor; [|exact Hy].
      unfold descending. apply Qclt_le_weak. apply Qcnot_le_lt.
      intros H. apply Qle_bool_iff in H. congruence.
Qed.

Lemma sort_reverse_sorted l : StronglySorted (descending key) (sort_reverse key l).
Proof.
  induction l as [|x l IH]; cbn; [constructor | now apply insert_desc_sorted].
Qed.

Lemma insert_desc_before x y a l :
  before x y (insert_desc key a l) ->
  before x y l \/ (x = a /\ In y l) \/ (y = a /\ In x l /\ (key a < key x)%Qc).
Proof.
  induction l as [|b l IH]; cbn; intros H.
  - apply before_cons_inv in H. destruct H as [[_ []] | H].
    now apply before_nil in H.
  - destruct (Qle_bool (key b) (key a)) eqn:E.
    + apply before_cons_inv in H. destruct H as [[-> Hy] | H]; auto.
    + assert (Hlt : (key a < key b)%Qc).
      { apply Qcnot_le_lt. intros H'. apply Qle_bool_iff in H'. congruence. }
      apply before_cons_inv in H. destruct H as [[-> Hy] | H].
      * apply (Permutation_in _ (insert_desc_Permutation a l)) in Hy.
        destruct Hy as [<- | Hy].
        -- right. right. split; [reflexivity | split; [now left | assumption]].
        -- left. now apply before_head.
      * destruct (IH H) as [Hb | [[-> Hy] | (-> & Hx & Hk)]].
        -- left. now apply before_cons.
        -- right. left. split; [reflexivity | now right].
        -- right. right. split; [reflexivity | split; [now right | assumption]].
Qed.

(** Stability: elements with equal keys keep their relative order. *)
Lemma sort_reverse_stable x y l :
  before x y (sort_reverse key l) -> key x = key y -> before x y l.
Proof.
  intros H Hk. induction l as [|a l IH]; cbn in H.
  - now apply before_nil in H.
  - apply insert_desc_before in H.
    destruct H as [Hb | [[-> Hy] | (-> & Hx & Hlt)]].
    + apply before_cons. auto.
    + apply before_head. exact (proj1 (sort_reverse_In y l) Hy).
    + rewrite Hk in Hlt. exfalso. eapply Qclt_not_le; [exact Hlt|].
      apply Qcle_refl.
Qed.

End SortFacts.

(** ** [get_category_winners] *)

Lemma category_results_flat_map c (ts : TeamScores) :
  category_results c ts = flat_map (candidate c) ts.
Proof.
  unfold category_results, items.
  assert (G : forall l acc,
             fold_left
               (fun (acc : list (string * Qc)) (entry : string * dict Stat) =>
                  let '(team, cats) := entry in
                  match get c cats with
                  | Some st =>
                      if 0 <? judges_count st
                      then acc ++ [(team, percentage st)] else acc
                  | None => acc
                  end) l acc
             = acc ++ flat_map (candidate c) l).
  { induction l as [|[tm cats] l IH]; intros acc; cbn [fold_left flat_map].
    - now rewrite app_nil_r.
    - rewrite IH. unfold candidate at 2. cbn [fst snd].
      destruct (get c cats) as [st|]; auto.
      destruct (0 <? judges_count st); auto.
      now rewrite <- app_assoc. }
  apply G.
Qed.

Lemma In_candidates c (ts : TeamScores) t p :
  In (t, p) (flat_map (candidate c) ts) <->
  exists cats st,
    In (t, cats) (items ts) /\ get c cats = Some st /\
    0 < judges_count st /\ p = percentage st.
Proof.
  rewrite in_flat_map. unfold items. split.
  - intros ([tm cats] & Hin & Hc). unfold candidate in Hc. cbn [fst snd] in Hc.
    destruct (get c cats) as [st|] eqn:Eg; [|contradiction].
    destruct (0 <? judges_count st) eqn:En; [|contradiction].
    destruct Hc as [Hc|[]]. injection Hc as -> <-.
    exists cats, st. apply Z.ltb_lt in En. auto.
  - intros (cats & st & Hin & Eg & En & ->).
    exists (t, cats). split; auto.
    unfold candidate. cbn [fst snd]. rewrite Eg.
    apply Z.ltb_lt in En. rewrite En. now left.
Qed.

Lemma candidates_keys c (ts : TeamScores) x :
  In x (flat_map (candidate c) ts) -> In (fst x) (keys ts).
Proof.
  destruct x as [t p]. intros H.
  apply In_candidates in H. destruct H as (cats & st & Hin & _).
  unfold keys. apply in_map_iff. now exists (t, cats).
Qed.

Lemma candidates_before c (ts : TeamScores) x y :
  before x y (flat_map (candidate c) ts) -> before (fst x) (fst y) (keys ts).
Proof.
  induction ts as [|[tm cats] ts IH]; cbn [flat_map]; intros H.
  - now apply before_nil in H.
  - unfold candidate at 1 in H. cbn [fst snd] in H.
    assert (Hrest : before x y (flat_map (candidate c) ts) ->
                    before (fst x) (fst y) (keys ((tm, cats) :: ts))).
    { intros Hb. apply before_cons. auto. }
    destruct (get c cats) as [st|]; auto.
    destruct (0 <? judges_count st); auto.
    cbn [app] in H. apply before_cons_inv in H.
    destruct H as [[-> Hy] | H]; auto.
    apply before_head. now apply (candidates_keys c).
Qed.

Lemma candidates_NoDup c (ts : TeamScores) :
  NoDup (keys ts) -> NoDup (map fst (flat_map (candidate c) ts)).
Proof.
  induction ts as [|[tm cats] ts IH]; cbn [flat_map keys map].
  - constructor.
  - intros Hnd. inversion Hnd as [|? ? Hnin Hnd']; subst.
    rewrite map_app. unfold candidate at 1. cbn [fst snd].
    assert (Hrest : NoDup (map fst (flat_map (candidate c) ts))) by auto.
    destruct (get c cats) as [st|]; auto.
    destruct (0 <? judges_count st); auto.
    cbn. constructor; auto.
    intros Hin. apply in_map_iff in Hin. destruct Hin as (x & <- & Hx).
    apply Hnin. now apply (candidates_keys c).
Qed.

Lemma get_category_winners_get config (ts : TeamScores) c :
  get c (get_category_winners config ts)
  = if in_dec string_dec c (all_categories config)
    then Some (sort_reverse snd (flat_map (candidate c) ts))
    else None.
Proof.
  unfold get_category_winners.
  rewrite (get_fold_set
             (fun category => sort_reverse snd (category_results category ts))).
  now rewrite category_results_flat_map.
Qed.

(** C4. For every configured category the ranking exists; its entries are
    exactly the teams with a positive [judges_count] in that category, each
    with its percentage and, for a table with unique team keys, each once;
    it is in descending order of percentage; without a judged team it is
    empty. *)
Theorem category_ranking_complete_sorted
    (config : Config) (ts : TeamScores) (c : string) :
  In c (all_categories config) ->
  exists r,
    get c (get_category_winners config ts) = Some r /\
    (forall t p,
        In (t, p) r <->
        exists cats st,
          In (t, cats) (items ts) /\ get c cats = Some st /\
          0 < judges_count st /\ p = percentage st) /\
    (NoDup (keys ts) -> NoDup (map fst r)) /\
    StronglySorted (fun x y => (snd y <= snd x)%Qc) r /\
    ((forall t cats st,
         In (t, cats) (items ts) -> get c cats = Some st -> judges_count st <= 0) ->
     r = []).
Proof.
  intros Hc. eexists. split; [|split; [|split; [|split]]].
  - rewrite get_category_winners_get.
    destruct (in_dec string_dec c (all_categories config)); [reflexivity | contradiction].
  - intros t p. rewrite sort_reverse_In. apply In_candidates.
  - intros Hnd.
    apply (Permutation_NoDup
             (Permutation_map fst
                (Permutation_sym (sort_reverse_Permutation snd _)))).
    now apply candidates_NoDup.
  - apply (sort_reverse_sorted snd).
  - intros Hnone.
    destruct (sort_reverse snd (flat_map (candidate c) ts)) as [|[t p] r] eqn:E; auto.
    assert (Hin : In (t, p) (sort_reverse snd (flat_map (candidate c) ts))).
    { rewrite E. now left. }
    apply sort_reverse_In, In_candidates in Hin.
    destruct Hin as (cats & st & Hin & Hg & Hn & _).
    specialize (Hnone _ _ _ Hin Hg). lia.
Qed.

(** C5. In the ranking of a category computed from the result of
    [calculate_all_team_scores], of two entries with equal percentage the
    earlier one belongs to the team that comes first in the configured
    team list. *)
Theorem ties_in_configuration_order
    (config : Config) (store : ScoreStore) (R : TeamScores)
    (c : string) (r : list (string * Qc)) (t1 t2 : string) (p : Qc) :
  calculate_all_team_scores config store = Some R ->
  get c (get_category_winners config R) = Some r ->
  before (t1, p) (t2, p) r ->
  (index_of t1 (teams config) < index_of t2 (teams config))%nat.
Proof.
  intros HR Hr Hb.
  destruct (calculate_spec config store) as (R' & HR' & Hk & _).
  rewrite HR in HR'. injection HR' as <-.
  rewrite get_category_winners_get in Hr.
  destruct (in_dec string_dec c (all_categories config)); [|discriminate].
  injection Hr as <-.
  apply sort_reverse_stable in Hb; [|reflexivity].
  apply candidates_before in Hb. cbn [fst] in Hb. rewrite Hk in Hb.
  now apply before_dedup_first_index.
Qed.

(** ** Overall standings *)

Lemma Qc_sum_nil : Qc_sum [] = 0%Qc.
Proof. exact Z2Qc_0. Qed.

Lemma Qc_sum_cons x l : Qc_sum (x :: l) = (x + Qc_sum l)%Qc.
Proof. reflexivity. Qed.

Lemma team_totals_spec (cats : dict Stat) :
  team_totals cats
  = (Qc_sum (map percentage (judged_stats cats)),
     Z.of_nat (List.length (judged_stats cats))).
Proof.
  unfold team_totals, judged_stats, items, values.
  assert (G : forall (l : dict Stat) a n,
             fold_left
               (fun (acc : Qc * Z) (entry : string * Stat) =>
                  let '(total_score, total_categories) := acc in
                  let data := snd entry in
                  if 0 <? judges_count data
                  then ((total_score + percentage data)%Qc, total_categories + 1)
                  else (total_score, total_categories)) l (a, n)
             = ((a + Qc_sum (map percentage (filter judged (map snd l))))%Qc,
                n + Z.of_nat (List.length (filter judged (map snd l))))).
  { induction l as [|[k st] l IH]; intros a n; cbn [fold_left map filter snd].
    - rewrite Qc_sum_nil. cbn [List.length]. f_equal; [ring | lia].
    - change (judged st) with (0 <? judges_count st).
      destruct (0 <? judges_count st); rewrite IH; auto.
      cbn [map]. rewrite Qc_sum_cons. cbn [List.length].
      f_equal; [ring | lia]. }
  rewrite G. f_equal. rewrite Z2Qc_0. ring.
Qed.

Lemma overall_step_spec acc (entry : string * dict Stat) :
  overall_step acc entry = Some (acc ++ standing_of entry).
Proof.
  destruct entry as [tm cats]. unfold overall_step, standing_of.
  rewrite team_totals_spec. cbn [fst snd].
  destruct (0 <? Z.of_nat (List.length (judged_stats cats))) eqn:E.
  - apply Z.ltb_lt in E.
    rewrite true_div_ok by (apply Z2Qc_nonzero; lia). reflexivity.
  - now rewrite app_nil_r.
Qed.

Lemma overall_scores_spec (ts : TeamScores) : forall acc,
  for_each overall_step (items ts) acc = Some (acc ++ flat_map standing_of ts).
Proof.
  unfold items. induction ts as [|e ts IH]; intros acc; cbn [for_each flat_map].
  - now rewrite app_nil_r.
  - rewrite overall_step_spec. cbn [bind]. rewrite IH. now rewrite <- app_assoc.
Qed.

Lemma overall_standings_eq (ts : TeamScores) :
  overall_standings ts
  = Some (sort_reverse standing_score (flat_map standing_of ts)).
Proof.
  unfold overall_standings. rewrite overall_scores_spec. cbn [bind app].
  now destruct (flat_map standing_of ts).
Qed.

Lemma In_standings (ts : TeamScores) t s k :
  In (t, s, k) (flat_map standing_of ts) <->
  exists cats,
    In (t, cats) (items ts) /\
    k = Z.of_nat (List.length (judged_stats cats)) /\ 0 < k /\
    s = (Qc_sum (map percentage (judged_stats cats)) / Z2Qc k)%Qc.
Proof.
  rewrite in_flat_map. unfold items. split.
  - intros ([tm cats] & Hin & Hs). unfold standing_of in Hs. cbn [fst snd] in Hs.
    destruct (0 <? Z.of_nat (List.length (judged_stats cats))) eqn:E; [|contradiction].
    destruct Hs as [Hs|[]]. injection Hs as -> <- <-.
    exists cats. apply Z.ltb_lt in E. auto.
  - intros (cats & Hin & -> & Hk & ->).
    exists (t, cats). split; auto.
    unfold standing_of. cbn [fst snd].
    apply Z.ltb_lt in Hk. rewrite Hk. now left.
Qed.

(** C6. The overall standings are computed without error; their entries
    are exactly the teams with at least one judged category, each with the
    mean of its percentages over the judged categories and their number;
    they are in descending order of that mean; a team without a judged
    category is absent. *)
Theorem overall_standings_complete_sorted (ts : TeamScores) :
  exists r,
    overall_standings ts = Some r /\
    (forall t s k,
        In (t, s, k) r <->
        exists cats,
          In (t, cats) (items ts) /\
          k = Z.of_nat (List.length (judged_stats cats)) /\ 0 < k /\
          s = (Qc_sum (map percentage (judged_stats cats)) / Z2Qc k)%Qc) /\
    StronglySorted (fun x y => (standing_score y <= standing_score x)%Qc) r /\
    (forall t,
        (forall cats, In (t, cats) (items ts) -> judged_stats cats = []) ->
        forall s k, ~ In (t, s, k) r).
Proof.
  eexists. split; [apply overall_standings_eq|].
  split; [|split].
  - intros t s k. rewrite sort_reverse_In. apply In_standings.
  - apply (sort_reverse_sorted standing_score).
  - intros t Hnone s k Hin.
    apply sort_reverse_In, In_standings in Hin.
    destruct Hin as (cats & Hin & -> & Hk & _).
    rewrite (Hnone _ Hin) in Hk. cbn in Hk. lia.
Qed.

(** ** The save action *)

Lemma set_set {V : Type} k (v1 v2 : V) (d : dict V) :
  set k v2 (set k v1 d) = set k v2 d.
Proof.
  induction d as [|[k0 v0] d IH]; cbn.
  - now rewrite String.eqb_refl.
  - destruct (String.eqb k k0) eqn:E; cbn.
    + now rewrite String.eqb_refl.
    + now rewrite E, IH.
Qed.

(** Saving again for the same judge and team replaces the entry. *)
Lemma save_action_replaces j t s1 s2 n1 n2 w1 w2 (store : ScoreStore) :
  save_action j t s2 n2 w2 (save_action j t s1 n1 w1 store)
  = save_action j t s2 n2 w2 store.
Proof. unfold save_action. apply set_set. Qed.

(** C3. The key [f"{judge}_{team}"] is not unique per (judge, team): the
    distinct pairs ("Sam", "Lee_Labs") and ("Sam_Lee", "Labs") get the same
    key, the second save overwrites the first judge's entry, and team
    "Lee_Labs" is left with no judgement. *)
Theorem judge_key_collision :
  ("Sam", "Lee_Labs") <> ("Sam_Lee", "Labs") /\
  judge_key "Sam" "Lee_Labs" = judge_key "Sam_Lee" "Labs" /\
  keys underscore_store = ["Sam_Lee_Labs"] /\
  option_map team (get "Sam_Lee_Labs" underscore_store) = Some "Labs" /\
  exists R,
    calculate_all_team_scores underscore_config underscore_store = Some R /\
    option_map judges_count (get_stat R "Lee_Labs" "Tech") = Some 0 /\
    option_map judges_count (get_stat R "Labs" "Tech") = Some 1.
Proof.
  split; [discriminate|]. do 3 (split; [reflexivity|]).
  exists (result_of underscore_config underscore_store).
  repeat split; vm_compute; reflexivity.
Qed.

(** ** The scenarios of the specification *)

(** One submission of 8 out of 10 for "Alpha". *)
Example scenario_single_submission :
  option_map table_view
    (calculate_all_team_scores demo_config
       [("J1_Alpha", demo_sub "J1" "Alpha" 8)])
  = Some [("Alpha", [("Tech", ((8 # 1)%Q, 10, (80 # 1)%Q, 1))]);
          ("Beta", [("Tech", ((0 # 1)%Q, 0, (0 # 1)%Q, 0))])] /\
  option_map ranking_view
    (get "Tech"
       (get_category_winners demo_config
          (result_of demo_config [("J1_Alpha", demo_sub "J1" "Alpha" 8)])))
  = Some [("Alpha", (80 # 1)%Q)] /\
  option_map standing_view
    (overall_standings
       (result_of demo_config [("J1_Alpha", demo_sub "J1" "Alpha" 8)]))
  = Some [("Alpha", (80 # 1)%Q, 1)].
Proof. repeat split; vm_compute; reflexivity. Qed.

(** Two judges giving 6 and 10 out of 10. *)
Example scenario_two_judges :
  option_map table_view (calculate_all_team_scores demo_config two_judges)
  = Some [("Alpha", [("Tech", ((8 # 1)%Q, 10, (80 # 1)%Q, 2))]);
          ("Beta", [("Tech", ((0 # 1)%Q, 0, (0 # 1)%Q, 0))])].
Proof. vm_compute. reflexivity. Qed.

(** The same judge saving twice for the same team. *)
Example scenario_resubmission :
  option_map table_view
    (calculate_all_team_scores demo_config
       (save_action "J1" "Alpha" [("Tech", [("crit", 9)])] "" "2025-01-01 00:00:02"
          (save_action "J1" "Alpha" [("Tech", [("crit", 4)])] "" "2025-01-01 00:00:01"
             [])))
  = Some [("Alpha", [("Tech", ((9 # 1)%Q, 10, (90 # 1)%Q, 1))]);
          ("Beta", [("Tech", ((0 # 1)%Q, 0, (0 # 1)%Q, 0))])].
Proof. vm_compute. reflexivity. Qed.

(** * The claims on the scenario *)

Lemma incremental_mean_witness :
  exists R R' st st',
    calculate_all_team_scores demo_config two_judges = Some R /\
    calculate_all_team_scores demo_config two_judges_rev = Some R' /\
    get_stat R "Alpha" "Tech" = Some st /\
    get_stat R' "Alpha" "Tech" = Some st' /\
    judges_count st
    = Z.of_nat (List.length (contribs "Alpha" "Tech" two_judges)) /\
    avg_score st
    = (Z2Qc (sum (contribs "Alpha" "Tech" two_judges))
       / Z2Qc (Z.of_nat (List.length (contribs "Alpha" "Tech" two_judges))))%Qc /\
    avg_score st' = avg_score st.
Proof.
  apply (incremental_mean_order_independent
           demo_config two_judges two_judges_rev "Alpha" "Tech").
  - simpl. auto.
  - simpl. auto.
  - apply perm_swap.
  - vm_compute. discriminate.
Defined.

Lemma every_configured_pair_witness :
  get_stat (init_scores demo_config) "Beta" "Tech" = Some zero_stat /\
  calculate_all_team_scores demo_config [] = Some (init_scores demo_config) /\
  exists R cats st,
    calculate_all_team_scores demo_config two_judges = Some R /\
    get "Beta" R = Some cats /\ get "Tech" cats = Some st.
Proof.
  apply (every_configured_pair_present demo_config two_judges "Beta" "Tech").
  - simpl. auto.
  - simpl. auto.
Defined.

Lemma category_ranking_witness :
  exists r,
    get "Tech" (get_category_winners demo_config (result_of demo_config two_judges))
    = Some r /\
    (forall t p,
        In (t, p) r <->
        exists cats st,
          In (t, cats) (items (result_of demo_config two_judges)) /\
          get "Tech" cats = Some st /\
          0 < judges_count st /\ p = percentage st) /\
    (NoDup (keys (result_of demo_config two_judges)) -> NoDup (map fst r)) /\
    StronglySorted (fun x y => (snd y <= snd x)%Qc) r /\
    ((forall t cats st,
         In (t, cats) (items (result_of demo_config two_judges)) ->
         get "Tech" cats = Some st -> judges_count st <= 0) ->
     r = []).
Proof.
  apply (category_ranking_complete_sorted
           demo_config (result_of demo_config two_judges) "Tech").
  simpl. auto.
Defined.

Lemma ties_witness :
  (index_of "Alpha" (teams demo_config) < index_of "Beta" (teams demo_config))%nat.
Proof.
  apply (ties_in_configuration_order
           demo_config tied_store (result_of demo_config tied_store) "Tech"
           (ranking_of demo_config (result_of demo_config tied_store) "Tech")
           "Alpha" "Beta"
           (percentage (stat_of (result_of demo_config tied_store) "Alpha" "Tech"))).
  - vm_compute. reflexivity.
  - vm_compute. reflexivity.
  - exists [], [], []. vm_compute. reflexivity.
Defined.


Lemma unknown_team_witness :
  (exists R,
      calculate_all_team_scores demo_config
        ([("J1_Alpha", demo_sub "J1" "Alpha" 6)] ++ orphan
           :: [("J2_Alpha", demo_sub "J2" "Alpha" 10)]) = Some R) /\
  calculate_all_team_scores demo_config
    ([("J1_Alpha", demo_sub "J1" "Alpha" 6)] ++ orphan
       :: [("J2_Alpha", demo_sub "J2" "Alpha" 10)])
  = calculate_all_team_scores demo_config
      ([("J1_Alpha", demo_sub "J1" "Alpha" 6)]
         ++ [("J2_Alpha", demo_sub "J2" "Alpha" 10)]).
Proof.
  apply (unknown_team_skipped demo_config
           [("J1_Alpha", demo_sub "J1" "Alpha" 6)]
           [("J2_Alpha", demo_sub "J2" "Alpha" 10)] orphan).
  simpl. intros [H | [H | []]]; discriminate.
Defined.

Lemma category_score_witness :
  exists R R' st st',
    calculate_all_team_scores demo_config [("J1_Alpha", demo_sub "J1" "Alpha" 6)]
    = Some R /\
    calculate_all_team_scores demo_config
      ([("J1_Alpha", demo_sub "J1" "Alpha" 6)] ++ [("J2_Alpha", extra_sub)])
    = Some R' /\
    get_stat R (team extra_sub) "Tech" = Some st /\
    get_stat R' (team extra_sub) "Tech" = Some st' /\
    judges_count st' = judges_count st + 1 /\
    avg_score st'
    = ((avg_score st * Z2Qc (judges_count st)
        + Z2Qc (sum (values [("crit", 7); ("bonus", 5)])))
       / Z2Qc (judges_count st + 1))%Qc /\
    total_possible st'
    = sum (flat_map
             (fun cat => if String.eqb (cat_name cat) "Tech"
                         then map max_score (criteria cat) else [])
             (categories demo_config)).
Proof.
  apply (category_score_from_submission
           demo_config [("J1_Alpha", demo_sub "J1" "Alpha" 6)]
           "J2_Alpha" extra_sub "Tech" [("crit", 7); ("bonus", 5)]).
  - simpl. auto.
  - simpl. auto.
  - simpl. constructor; [intros [] | constructor].
  - reflexivity.
Defined.

Lemma unjudged_entries_witness :
  (judges_count (stat_of (result_of demo_config two_judges) "Beta" "Tech") = 0 ->
   total_possible (stat_of (result_of demo_config two_judges) "Beta" "Tech") = 0 /\
   avg_score (stat_of (result_of demo_config two_judges) "Beta" "Tech") = Z2Qc 0 /\
   percentage (stat_of (result_of demo_config two_judges) "Beta" "Tech") = Z2Qc 0) /\
  (0 < judges_count (stat_of (result_of demo_config two_judges) "Beta" "Tech") ->
   total_possible (stat_of (result_of demo_config two_judges) "Beta" "Tech")
   = category_max demo_config "Tech").
Proof.
  apply (unjudged_entries_are_zero
           demo_config two_judges (result_of demo_config two_judges)
           "Beta" "Tech").
  - vm_compute. reflexivity.
  - vm_compute. reflexivity.
Defined.

(** * Further properties of the code *)

(** ** Order facts on the rationals *)

Lemma Z2Qc_le (a b : Z) : a <= b -> (Z2Qc a <= Z2Qc b)%Qc.
Proof.
  intros H. unfold Qcle, Z2Qc, Q2Qc; cbn [this].
  rewrite !Qred_correct. now rewrite <- Zle_Qle.
Qed.

Lemma Z2Qc_lt (a b : Z) : a < b -> (Z2Qc a < Z2Qc b)%Qc.
Proof.
  intros H. unfold Qclt, Z2Qc, Q2Qc; cbn [this].
  rewrite !Qred_correct. now rewrite <- Zlt_Qlt.
Qed.

Lemma Z2Qc_mul (a b : Z) : Z2Qc (a * b) = (Z2Qc a * Z2Qc b)%Qc.
Proof.
  apply Qc_is_canon. unfold Z2Qc, Qcmult, Q2Qc; cbn [this].
  rewrite !Qred_correct. rewrite inject_Z_mult. reflexivity.
Qed.

Lemma Z2Qc_pos (n : Z) : 0 < n -> (0 < Z2Qc n)%Qc.
Proof. intros H. rewrite <- Z2Qc_0. now apply Z2Qc_lt. Qed.

Lemma Qcdiv_bounds (lo hi x d : Qc) :
  (0 < d)%Qc -> (lo * d <= x)%Qc -> (x <= hi * d)%Qc ->
  (lo <= x / d)%Qc /\ (x / d <= hi)%Qc.
Proof.
  intros Hd Hlo Hhi.
  assert (Hne : d <> 0%Qc) by (intros E; rewrite E in Hd; now apply Qclt_not_eq in Hd).
  assert (E : (x / d * d = x)%Qc) by (field; exact Hne).
  split; apply (Qcmult_lt_0_le_reg_r _ _ d Hd); now rewrite E.
Qed.

Lemma sum_bounds (lo hi : Z) (l : list Z) :
  Forall (fun s => lo <= s <= hi) l ->
  lo * Z.of_nat (List.length l) <= sum l <= hi * Z.of_nat (List.length l).
Proof.
  induction 1 as [|s l Hs _ IH].
  - cbn. lia.
  - rewrite sum_cons. cbn [List.length]. lia.
Qed.

(** The mean of integers lies between any bounds of its elements. *)
Lemma mean_bounds (lo hi : Z) (l : list Z) :
  l <> [] -> Forall (fun s => lo <= s <= hi) l ->
  (Z2Qc lo <= Z2Qc (sum l) / Z2Qc (Z.of_nat (List.length l)))%Qc /\
  (Z2Qc (sum l) / Z2Qc (Z.of_nat (List.length l)) <= Z2Qc hi)%Qc.
Proof.
  intros Hne Hall. pose proof (sum_bounds lo hi l Hall) as [H1 H2].
  apply Qcdiv_bounds.
  - apply Z2Qc_pos. destruct l; [congruence | cbn; lia].
  - rewrite <- Z2Qc_mul. now apply Z2Qc_le.
  - rewrite <- Z2Qc_mul. now apply Z2Qc_le.
Qed.

Lemma percentage_bounds (avg : Qc) (cmax : Z) :
  0 < cmax -> (Z2Qc 0 <= avg)%Qc -> (avg <= Z2Qc cmax)%Qc ->
  (Z2Qc 0 <= avg / Z2Qc cmax * Z2Qc 100)%Qc /\
  (avg / Z2Qc cmax * Z2Qc 100 <= Z2Qc 100)%Qc.
Proof.
  intros Hc H0 H1. rewrite Z2Qc_0 in *.
  destruct (Qcdiv_bounds 0 1 avg (Z2Qc cmax)) as [Ha Hb].
  - now apply Z2Qc_pos.
  - now rewrite Qcmult_0_l.
  - now rewrite Qcmult_1_l.
  - assert (H100 : (0 <= Z2Qc 100)%Qc).
    { rewrite <- Z2Qc_0. apply Z2Qc_le. lia. }
    split.
    + rewrite <- (Qcmult_0_l (Z2Qc 100)). now apply Qcmult_le_compat_r.
    + rewrite <- (Qcmult_1_l (Z2Qc 100)) at 2. now apply Qcmult_le_compat_r.
Qed.

(** X1. The average of a judged team/category lies between any two bounds
    of the category scores contributed to it. *)
Theorem avg_score_between_contributions
    (config : Config) (store : ScoreStore) (R : TeamScores)
    (t c : string) (st : Stat) (lo hi : Z) :
  calculate_all_team_scores config store = Some R ->
  get_stat R t c = Some st ->
  0 < judges_count st ->
  contribs_within lo hi t c store ->
  (Z2Qc lo <= avg_score st)%Qc /\ (avg_score st <= Z2Qc hi)%Qc.
Proof.
  intros HR Hst Hn Hall.
  destruct (get_stat_calculated_inv _ _ _ _ _ _ HR Hst) as (_ & _ & ->).
  rewrite run_count in Hn. cbn [zero_stat judges_count] in Hn.
  assert (Hne : contribs t c store <> []).
  { intros E. rewrite E in Hn. cbn in Hn. lia. }
  rewrite run_mean by exact Hne.
  now apply mean_bounds.
Qed.

(** X2. When every category score contributed to a team/category lies
    between 0 and the configured category maximum, its percentage lies
    between 0 and 100. *)
Theorem percentage_between_0_and_100
    (config : Config) (store : ScoreStore) (R : TeamScores)
    (t c : string) (st : Stat) :
  calculate_all_team_scores config store = Some R ->
  get_stat R t c = Some st ->
  contribs_within 0 (category_max config c) t c store ->
  (Z2Qc 0 <= percentage st)%Qc /\ (percentage st <= Z2Qc 100)%Qc.
Proof.
  intros HR Hst Hall.
  destruct (get_stat_calculated_inv _ _ _ _ _ _ HR Hst) as (_ & _ & ->).
  assert (H100 : (Z2Qc 0 <= Z2Qc 100)%Qc) by (apply Z2Qc_le; lia).
  destruct (contribs t c store) as [|s l] eqn:E.
  - cbn. split; [apply Qcle_refl | exact H100].
  - assert (Hne : s :: l <> []) by discriminate.
    destruct (run_judged (category_max config c) (s :: l) zero_stat Hne) as [_ ->].
    destruct (0 <? category_max config c) eqn:Ec.
    + apply Z.ltb_lt in Ec. rewrite run_mean by exact Hne.
      unfold contribs_within in Hall. rewrite E in Hall.
      destruct (mean_bounds _ _ _ Hne Hall).
      now apply percentage_bounds.
    + split; [apply Qcle_refl | exact H100].
Qed.

(** ** The shape of the result *)

Section ShapeFacts.
Context {V : Type}.

Lemma keys_fold_set (F : string -> V) (l : list string) : forall (d : dict V),
  keys (fold_left (fun d' k => set k (F k) d') l d)
  = keys d ++ filter (fun y => negb (mem y d)) (dedup_first l).
Proof.
  induction l as [|x l IH]; intros d; cbn [fold_left dedup_first].
  - cbn. now rewrite app_nil_r.
  - rewrite IH, keys_set. cbn [filter]. rewrite filter_filter.
    destruct (mem x d) eqn:Hx; cbn [negb].
    + f_equal. apply filter_ext. intros y. rewrite mem_set.
      now destruct (String.eqb x y), (mem y d).
    + rewrite <- app_assoc. cbn [app]. do 2 f_equal.
      apply filter_ext. intros y. rewrite mem_set.
      now destruct (String.eqb x y), (mem y d).
Qed.

Lemma filter_true {A : Type} (l : list A) : filter (fun _ => true) l = l.
Proof. induction l as [|x l IH]; cbn; congruence. Qed.

Lemma keys_fold_set_nil (F : string -> V) (l : list string) :
  keys (fold_left (fun d' k => set k (F k) d') l []) = dedup_first l.
Proof. rewrite keys_fold_set. cbn. apply filter_true. Qed.

Lemma shape_update (k : string) (f : dict V -> dict V) (T : dict (dict V)) :
  (forall v, get k T = Some v -> keys (f v) = keys v) ->
  shape (update k f T) = shape T.
Proof.
  unfold shape. induction T as [|[k0 v0] T IH]; intros H; cbn; auto.
  destruct (String.eqb k k0) eqn:E; cbn.
  - f_equal. f_equal. apply H. cbn. now rewrite E.
  - f_equal. apply IH. intros v Hv. apply H. cbn. now rewrite E.
Qed.

Lemma shape_constant (v0 : dict V) (T : dict (dict V)) :
  Forall (fun e => snd e = v0) T ->
  shape T = map (fun t => (t, keys v0)) (keys T).
Proof.
  unfold shape, keys. induction 1 as [|[k v] T Hv _ IH]; cbn; auto.
  cbn in Hv. subst v. now rewrite IH.
Qed.

Lemma set_constant (v0 : V) (k : string) (d : dict V) :
  Forall (fun e => snd e = v0) d -> Forall (fun e => snd e = v0) (set k v0 d).
Proof.
  induction 1 as [|[k1 v1] d Hv Hd IH]; cbn.
  - now repeat constructor.
  - destruct (String.eqb k k1); constructor; auto.
Qed.

End ShapeFacts.

Section StructureFacts.

Variable config : Config.

Lemma init_scores_constant :
  Forall (fun e => snd e = init_categories config) (init_scores config).
Proof.
  unfold init_scores.
  assert (G : forall l (T : TeamScores),
             Forall (fun e => snd e = init_categories config) T ->
             Forall (fun e => snd e = init_categories config)
                    (fold_left (init_team config) l T)).
  { induction l as [|t l IH]; intros T HT; cbn [fold_left]; auto.
    apply IH. rewrite init_team_set. now apply set_constant. }
  apply G. constructor.
Qed.

Lemma shape_init_scores :
  shape (init_scores config)
  = map (fun t => (t, dedup_first (all_categories config)))
        (dedup_first (teams config)).
Proof.
  rewrite (shape_constant _ _ init_scores_constant), keys_init_scores.
  unfold init_categories.
  now rewrite (keys_fold_set_nil (fun _ => zero_stat)).
Qed.

Lemma process_category_shape (T T1 : TeamScores) tm it :
  process_category config tm T it = Some T1 -> shape T1 = shape T.
Proof.
  destruct it as [c cs]. unfold process_category.
  destruct (get tm T) as [cats|] eqn:Hcats; cbn [bind]; [|discriminate].
  destruct (mem c cats) eqn:Hmem; cbn [negb].
  - destruct (get c cats) as [current|]; cbn [bind]; [|discriminate].
    destruct (update_stat _ _ current) as [current1|]; cbn [bind]; [|discriminate].
    intros H. injection H as <-. apply shape_update.
    intros v Hv. rewrite Hcats in Hv. injection Hv as <-.
    now rewrite keys_set, Hmem.
  - intros H. now injection H as <-.
Qed.

Lemma for_each_shape {A : Type} (body : TeamScores -> A -> option TeamScores) :
  (forall T T1 x, body T x = Some T1 -> shape T1 = shape T) ->
  forall l T T1, for_each body l T = Some T1 -> shape T1 = shape T.
Proof.
  intros Hbody. induction l as [|x l IH]; intros T T1; cbn [for_each].
  - intros H. now injection H as <-.
  - destruct (body T x) as [T0|] eqn:E; cbn [bind]; [|discriminate].
    intros H. rewrite (IH _ _ H). eauto.
Qed.

Lemma process_submission_shape (T T1 : TeamScores) e :
  process_submission config T e = Some T1 -> shape T1 = shape T.
Proof.
  unfold process_submission.
  destruct (mem (team (snd e)) T); cbn [negb].
  - apply for_each_shape. intros T0 T2 x. apply process_category_shape.
  - intros H. now injection H as <-.
Qed.

Lemma no_column_init c :
  ~ In c (all_categories config) -> no_column c (init_scores config).
Proof.
  intros Hc t. rewrite get_stat_init.
  destruct (in_dec string_dec t (teams config)); auto.
  destruct (in_dec string_dec c (all_categories config)); [contradiction | auto].
Qed.

Lemma process_category_no_column (T : TeamScores) tm c cs :
  no_column c T -> mem tm T = true ->
  process_category config tm T (c, cs) = Some T.
Proof.
  intros Hno Hmem. apply mem_get in Hmem. destruct Hmem as [cats Hcats].
  unfold process_category. rewrite Hcats. cbn [bind].
  specialize (Hno tm). unfold get_stat in Hno. rewrite Hcats in Hno. cbn in Hno.
  unfold mem. now rewrite Hno.
Qed.

Lemma process_categories_no_column its1 its2 tm c cs (T : TeamScores) :
  counts_ok T -> no_column c T -> mem tm T = true ->
  for_each (process_category config tm) (its1 ++ (c, cs) :: its2) T
  = for_each (process_category config tm) (its1 ++ its2) T.
Proof.
  intros Hok Hno Hmem. rewrite !for_each_app.
  destruct (process_categories_spec config its1 T tm Hok Hmem)
    as (T1 & H1 & Hk1 & Hg1).
  rewrite H1. cbn [bind for_each].
  rewrite process_category_no_column; auto.
  - intros t. rewrite Hg1, (Hno t). reflexivity.
  - now rewrite (keys_mem _ _ _ Hk1).
Qed.

End StructureFacts.

(** X3. Whatever the store, the result is a table whose rows are the
    configured teams and whose columns, in every row, are the configured
    categories, both in configuration order (of first occurrence). *)
Theorem result_shape (config : Config) (store : ScoreStore) :
  exists R,
    calculate_all_team_scores config store = Some R /\
    shape R
    = map (fun t => (t, dedup_first (all_categories config)))
          (dedup_first (teams config)).
Proof.
  destruct (calculate_spec config store) as (R & HR & _).
  exists R. split; [exact HR|].
  rewrite calculate_unfold in HR.
  rewrite <- shape_init_scores.
  revert HR. apply for_each_shape. intros T T1 e. apply process_submission_shape.
Qed.

(** X4. Scores a submission holds for a category that is not configured
    are skipped: the result is the one for the submission without them. *)
Theorem unknown_category_skipped
    (config : Config) (s1 s2 : ScoreStore) (k : string) (data : Submission)
    (its1 its2 : dict (dict Z)) (c : string) (cs : dict Z) :
  ~ In c (all_categories config) ->
  calculate_all_team_scores config
    (s1 ++ (k, with_scores data (its1 ++ (c, cs) :: its2)) :: s2)
  = calculate_all_team_scores config
      (s1 ++ (k, with_scores data (its1 ++ its2)) :: s2).
Proof.
  intros Hc. rewrite !calculate_unfold, !for_each_app.
  destruct (process_submissions_spec config s1 _ (counts_ok_init config))
    as (T1 & H1 & Hk1 & Hg1).
  rewrite H1. cbn [bind for_each].
  assert (Hok1 : counts_ok T1).
  { apply (run_counts_ok config (init_scores config) T1
             (fun t c0 => contribs t c0 s1)); auto using counts_ok_init. }
  assert (Hno1 : no_column c T1).
  { intros t. rewrite Hg1, (no_column_init config c Hc t). reflexivity. }
  unfold process_submission. cbn [snd with_scores team scores].
  destruct (mem (team data) T1) eqn:Hmem; cbn [negb]; auto.
  unfold items. now rewrite process_categories_no_column.
Qed.

(** ** Who is counted *)

Lemma cat_contribs_length c (its : dict (dict Z)) :
  NoDup (keys its) ->
  List.length (cat_contribs c its) = if mem c its then 1%nat else 0%nat.
Proof.
  intros Hnd. unfold mem. destruct (get c its) as [cs|] eqn:E.
  - now rewrite (cat_contribs_unique c cs its Hnd E).
  - apply get_None_not_In in E. now rewrite cat_contribs_absent.
Qed.

Lemma contribs_length t c (store : ScoreStore) :
  unique_categories store ->
  List.length (contribs t c store)
  = List.length (filter (scores_category t c) (values store)).
Proof.
  unfold values. induction store as [|e store IH]; intros Hu; auto.
  change (contribs t c (e :: store))
    with ((if String.eqb (team (snd e)) t
           then cat_contribs c (scores (snd e)) else [])
          ++ contribs t c store).
  rewrite length_app, IH by (intros e' He'; apply Hu; now right).
  cbn [map filter]. unfold scores_category at 2.
  destruct (String.eqb (team (snd e)) t); cbn [andb]; auto.
  rewrite cat_contribs_length by (apply Hu; now left).
  now destruct (mem c (scores (snd e))).
Qed.

Lemma filter_length_le {A : Type} (f : A -> bool) (l : list A) :
  (List.length (filter f l) <= List.length l)%nat.
Proof.
  induction l as [|x l IH]; cbn; auto. destruct (f x); cbn; lia.
Qed.

Lemma contribs_scores_of_team t c (store : ScoreStore) :
  contribs t c (scores_of_team t store) = contribs t c store.
Proof.
  unfold scores_of_team, items.
  induction store as [|e store IH]; auto.
  cbn [filter].
  change (contribs t c (e :: store))
    with ((if String.eqb (team (snd e)) t
           then cat_contribs c (scores (snd e)) else [])
          ++ contribs t c store).
  destruct (String.eqb (team (snd e)) t) eqn:E; auto.
  change (contribs t c (e :: filter (fun e0 => String.eqb (team (snd e0)) t) store))
    with ((if String.eqb (team (snd e)) t
           then cat_contribs c (scores (snd e)) else [])
          ++ contribs t c (filter (fun e0 => String.eqb (team (snd e0)) t) store)).
  now rewrite E, IH.
Qed.

Lemma cat_contribs_nonempty c (its : dict (dict Z)) :
  cat_contribs c its <> [] <-> exists cs, In (c, cs) its.
Proof.
  induction its as [|[c0 cs0] its IH]; cbn [cat_contribs flat_map fst snd].
  - split; [congruence | intros (cs & [])].
  - destruct (String.eqb c0 c) eqn:E.
    + apply String.eqb_eq in E. subst c0. split; [|discriminate].
      intros _. exists cs0. now left.
    + apply String.eqb_neq in E. cbn [app]. fold (cat_contribs c its).
      rewrite IH. split.
      * intros (cs & H). exists cs. now right.
      * intros (cs & [H | H]); [congruence | eauto].
Qed.

Lemma contribs_nonempty t c (store : ScoreStore) :
  contribs t c store <> [] <->
  exists k data cs, In (k, data) store /\ team data = t /\ In (c, cs) (scores data).
Proof.
  induction store as [|[k0 d0] store IH].
  - split; [cbn; congruence | intros (k & data & cs & [] & _)].
  - change (contribs t c ((k0, d0) :: store))
      with ((if String.eqb (team d0) t then cat_contribs c (scores d0) else [])
            ++ contribs t c store).
    split.
    + intros H.
      destruct (String.eqb (team d0) t) eqn:E.
      * destruct (cat_contribs c (scores d0)) as [|s l] eqn:Ec.
        -- cbn [app] in H. apply IH in H. destruct H as (k & data & cs & Hin & Ht & Hc).
           exists k, data, cs. split; [now right | auto].
        -- assert (Hne : cat_contribs c (scores d0) <> []) by (rewrite Ec; discriminate).
           apply cat_contribs_nonempty in Hne. destruct Hne as (cs & Hcs).
           apply String.eqb_eq in E.
           exists k0, d0, cs. split; [now left | auto].
      * cbn [app] in H. apply IH in H. destruct H as (k & data & cs & Hin & Ht & Hc).
        exists k, data, cs. split; [now right | auto].
    + intros (k & data & cs & Hin & Ht & Hc) Happ.
      apply app_eq_nil in Happ. destruct Happ as [H1 H2].
      destruct Hin as [Hin | Hin].
      * injection Hin as -> ->. rewrite Ht, String.eqb_refl in H1.
        revert H1. apply cat_contribs_nonempty. now exists cs.
      * revert H2. apply IH. now exists k, data, cs.
Qed.

Lemma NoDup_dedup_first (l : list string) : NoDup (dedup_first l).
Proof.
  induction l as [|x l IH]; cbn; constructor.
  - intros H. apply filter_In in H. destruct H as [_ H].
    now rewrite String.eqb_refl in H.
  - now apply NoDup_filter.
Qed.

Lemma In_dedup_first x (l : list string) : In x (dedup_first l) <-> In x l.
Proof.
  induction l as [|y l IH]; cbn; [tauto|].
  rewrite filter_In, IH. split.
  - intros [H | [H _]]; auto.
  - intros [H | H]; auto.
    destruct (String.eqb y x) eqn:E.
    + apply String.eqb_eq in E. auto.
    + right. auto.
Qed.

Section GetIn.
Context {V : Type}.

Lemma get_In k (v : V) (d : dict V) : get k d = Some v -> In (k, v) d.
Proof.
  induction d as [|[k0 v0] d IH]; cbn; [discriminate|].
  destruct (String.eqb k k0) eqn:E.
  - apply String.eqb_eq in E. intros H. injection H as ->. subst. now left.
  - auto.
Qed.

Lemma In_get k (v : V) (d : dict V) :
  NoDup (keys d) -> In (k, v) d -> get k d = Some v.
Proof.
  unfold keys. induction d as [|[k0 v0] d IH]; cbn; [tauto|].
  intros Hnd [H | H]; inversion Hnd as [|? ? Hnin Hnd']; subst.
  - injection H as -> ->. now rewrite String.eqb_refl.
  - destruct (String.eqb k k0) eqn:E; auto.
    apply String.eqb_eq in E. subst k0. exfalso. apply Hnin.
    apply in_map_iff. now exists (k, v).
Qed.

End GetIn.

Lemma shape_calculated config store R :
  calculate_all_team_scores config store = Some R ->
  shape R
  = map (fun t => (t, dedup_first (all_categories config)))
        (dedup_first (teams config)).
Proof.
  intros HR. rewrite calculate_unfold in HR.
  rewrite <- shape_init_scores.
  revert HR. apply for_each_shape. intros T T1 e. apply process_submission_shape.
Qed.

Lemma keys_calculated config store R :
  calculate_all_team_scores config store = Some R ->
  keys R = dedup_first (teams config).
Proof.
  intros HR. destruct (calculate_spec config store) as (R' & HR' & Hk & _).
  congruence.
Qed.

Lemma row_keys_calculated config store R t cats :
  calculate_all_team_scores config store = Some R ->
  In (t, cats) R -> keys cats = dedup_first (all_categories config).
Proof.
  intros HR Hin. apply shape_calculated in HR.
  assert (H : In (t, keys cats) (shape R)).
  { unfold shape. apply in_map_iff. now exists (t, cats). }
  rewrite HR in H. apply in_map_iff in H. destruct H as (t' & E & _).
  now injection E as _ <-.
Qed.

(** A cell of the result is judged exactly when a submission of a
    configured team scores a configured category. *)
Lemma judged_calculated config store R t cats c st :
  calculate_all_team_scores config store = Some R ->
  In (t, cats) R -> get c cats = Some st ->
  (0 < judges_count st <->
   exists k data cs,
     In (k, data) store /\ team data = t /\ In (c, cs) (scores data)).
Proof.
  intros HR Hin Hg.
  assert (Hgt : get t R = Some cats).
  { apply In_get; auto. rewrite (keys_calculated _ _ _ HR). apply NoDup_dedup_first. }
  assert (Hst : get_stat R t c = Some st).
  { unfold get_stat. rewrite Hgt. exact Hg. }
  destruct (get_stat_calculated_inv _ _ _ _ _ _ HR Hst) as (_ & _ & ->).
  rewrite run_count. cbn [zero_stat judges_count].
  rewrite <- contribs_nonempty.
  destruct (contribs t c store) as [|s l].
  - cbn. split; [lia | congruence].
  - cbn [List.length]. split; [discriminate | lia].
Qed.

(** X5. With well-formed submissions, the [judges_count] of a configured
    team and category is the number of submissions for that team that
    score that category; it never exceeds the number of submissions. *)
Theorem judges_count_counts_submissions
    (config : Config) (store : ScoreStore) (t c : string) :
  unique_categories store ->
  In t (teams config) -> In c (all_categories config) ->
  exists R st,
    calculate_all_team_scores config store = Some R /\
    get_stat R t c = Some st /\
    judges_count st
    = Z.of_nat (List.length (filter (scores_category t c) (values store))) /\
    judges_count st <= Z.of_nat (List.length store).
Proof.
  intros Hu Ht Hc.
  destruct (calculate_spec config store) as (R & HR & _).
  exists R. eexists. split; [exact HR|].
  split; [eapply get_stat_calculated; eauto|].
  rewrite run_count. cbn [zero_stat judges_count].
  rewrite (contribs_length t c store Hu).
  pose proof (filter_length_le (scores_category t c) (values store)) as Hle.
  unfold values in *. rewrite length_map in Hle. split; lia.
Qed.

(** X6. The statistics of a team depend on that team's submissions only:
    the store filtered to the team, as the score viewer does, gives the
    same statistics for it. *)
Theorem team_stats_from_own_submissions
    (config : Config) (store : ScoreStore) (t : string) :
  exists R R',
    calculate_all_team_scores config store = Some R /\
    calculate_all_team_scores config (scores_of_team t store) = Some R' /\
    forall c, get_stat R' t c = get_stat R t c.
Proof.
  destruct (calculate_spec config store) as (R & HR & _ & Hg).
  destruct (calculate_spec config (scores_of_team t store)) as (R' & HR' & _ & Hg').
  exists R, R'. split; [exact HR|]. split; [exact HR'|].
  intros c. now rewrite Hg, Hg', contribs_scores_of_team.
Qed.

(** X7. A team is listed in the ranking of a configured category exactly
    when it is a configured team and some submission for it scores that
    category. *)
Theorem ranked_iff_scored
    (config : Config) (store : ScoreStore) (c : string) :
  In c (all_categories config) ->
  exists R r,
    calculate_all_team_scores config store = Some R /\
    get c (get_category_winners config R) = Some r /\
    forall t,
      In t (map fst r) <->
      In t (teams config) /\
      exists k data cs,
        In (k, data) store /\ team data = t /\ In (c, cs) (scores data).
Proof.
  intros Hc.
  destruct (calculate_spec config store) as (R & HR & Hk & _).
  exists R. eexists. split; [exact HR|]. split.
  - rewrite get_category_winners_get.
    destruct (in_dec string_dec c (all_categories config)); [reflexivity | contradiction].
  - intros t. split.
    + intros Hin. apply in_map_iff in Hin. destruct Hin as ([t' p] & <- & Hin).
      cbn [fst]. apply sort_reverse_In, In_candidates in Hin.
      destruct Hin as (cats & st & Hin & Hg & Hn & _).
      split.
      * apply In_dedup_first. rewrite <- Hk. unfold keys.
        apply in_map_iff. now exists (t', cats).
      * now apply (judged_calculated config store R t' cats c st HR Hin Hg).
    + intros (Ht & Hsub).
      assert (Hcats : exists cats, get t R = Some cats).
      { apply mem_get. apply mem_true_iff. rewrite Hk. now apply In_dedup_first. }
      destruct Hcats as (cats & Hcats).
      pose proof (get_stat_calculated config store R t c HR Ht Hc) as Hst.
      unfold get_stat in Hst. rewrite Hcats in Hst. cbn [bind] in Hst.
      apply get_In in Hcats.
      apply in_map_iff. eexists (t, _). split; [reflexivity|].
      apply sort_reverse_In, In_candidates.
      do 2 eexists. split; [exact Hcats|]. split; [exact Hst|].
      split; [|reflexivity].
      now apply (judged_calculated config store R t cats c _ HR Hcats Hst).
Qed.

(** ** Means of rationals *)





(** ** Overall standings of a computed table *)

Lemma standings_keys (ts : TeamScores) x :
  In x (flat_map standing_of ts) -> In (standing_team x) (keys ts).
Proof.
  destruct x as [[t s] k]. intros H.
  apply In_standings in H. destruct H as (cats & Hin & _).
  unfold keys. apply in_map_iff. now exists (t, cats).
Qed.

Lemma standings_before (ts : TeamScores) x y :
  before x y (flat_map standing_of ts) ->
  before (standing_team x) (standing_team y) (keys ts).
Proof.
  induction ts as [|[tm cats] ts IH]; cbn [flat_map]; intros H.
  - now apply before_nil in H.
  - unfold standing_of at 1 in H. cbn [fst snd] in H.
    assert (Hrest : before x y (flat_map standing_of ts) ->
                    before (standing_team x) (standing_team y)
                           (keys ((tm, cats) :: ts))).
    { intros Hb. apply before_cons. auto. }
    destruct (0 <? Z.of_nat (List.length (judged_stats cats))); auto.
    cbn [app] in H. apply before_cons_inv in H.
    destruct H as [[-> Hy] | H]; auto.
    apply before_head. now apply standings_keys.
Qed.

Lemma standings_NoDup (ts : TeamScores) :
  NoDup (keys ts) -> NoDup (map standing_team (flat_map standing_of ts)).
Proof.
  induction ts as [|[tm cats] ts IH]; cbn [flat_map keys map].
  - constructor.
  - intros Hnd. inversion Hnd as [|? ? Hnin Hnd']; subst.
    rewrite map_app. unfold standing_of at 1. cbn [fst snd].
    assert (Hrest : NoDup (map standing_team (flat_map standing_of ts))) by auto.
    destruct (0 <? Z.of_nat (List.length (judged_stats cats))); auto.
    cbn. constructor; auto.
    intros Hin. apply in_map_iff in Hin. destruct Hin as (x & <- & Hx).
    apply Hnin. now apply standings_keys.
Qed.

Lemma judged_stats_nonempty (cats : dict Stat) :
  0 < Z.of_nat (List.length (judged_stats cats)) <->
  exists c st, In (c, st) cats /\ 0 < judges_count st.
Proof.
  unfold judged_stats, values. split.
  - intros H.
    destruct (filter judged (map snd cats)) as [|st l] eqn:E; [cbn in H; lia|].
    assert (Hin : In st (filter judged (map snd cats))) by (rewrite E; now left).
    apply filter_In in Hin. destruct Hin as [Hin Hj].
    apply in_map_iff in Hin. destruct Hin as ([c st'] & <- & Hin).
    exists c, st'. split; auto. now apply Z.ltb_lt.
  - intros (c & st & Hin & Hn).
    assert (Hf : In st (filter judged (map snd cats))).
    { apply filter_In. split.
      - apply in_map_iff. now exists (c, st).
      - now apply Z.ltb_lt. }
    destruct (filter judged (map snd cats)); [contradiction | cbn; lia].
Qed.


(** X8. A team is listed in the overall standings of a computed table
    exactly when it is configured and some submission for it scores a
    configured category; no team is listed twice, and the number of judged
    categories shown for it is at most the number of configured ones. *)
Theorem standings_iff_scored (config : Config) (store : ScoreStore) :
  exists R r,
    calculate_all_team_scores config store = Some R /\
    overall_standings R = Some r /\
    NoDup (map standing_team r) /\
    (forall x, In x r ->
       1 <= snd x <= Z.of_nat (List.length (dedup_first (all_categories config)))) /\
    forall t,
      In t (map standing_team r) <->
      In t (teams config) /\
      exists k data c cs,
        In (k, data) store /\ team data = t /\
        In (c, cs) (scores data) /\ In c (all_categories config).
Proof.
  destruct (calculate_spec config store) as (R & HR & Hk & _).
  exists R. eexists. split; [exact HR|]. split; [apply overall_standings_eq|].
  assert (HndR : NoDup (keys R)) by (rewrite Hk; apply NoDup_dedup_first).
  split; [|split].
  - apply (Permutation_NoDup
             (Permutation_map standing_team
                (Permutation_sym (sort_reverse_Permutation standing_score _)))).
    now apply standings_NoDup.
  - intros [[t s] k] Hin. apply sort_reverse_In, In_standings in Hin.
    destruct Hin as (cats & Hin & -> & Hpos & _). cbn [snd].
    split; [lia|].
    rewrite <- (row_keys_calculated config store R t cats HR Hin).
    unfold judged_stats, keys, values.
    pose proof (filter_length_le judged (map snd cats)) as Hle.
    rewrite !length_map in *. lia.
  - intros t. split.
    + intros Hin. apply in_map_iff in Hin. destruct Hin as ([[t' s] k] & <- & Hin).
      cbn [standing_team fst].
      apply sort_reverse_In, In_standings in Hin.
      destruct Hin as (cats & Hin & -> & Hpos & _).
      apply judged_stats_nonempty in Hpos. destruct Hpos as (c & st & Hc & Hn).
      pose proof (row_keys_calculated config store R t' cats HR Hin) as Hkeys.
      assert (Hg : get c cats = Some st).
      { apply In_get; auto. rewrite Hkeys. apply NoDup_dedup_first. }
      split.
      * apply In_dedup_first. rewrite <- Hk. unfold keys.
        apply in_map_iff. now exists (t', cats).
      * apply (judged_calculated config store R t' cats c st HR Hin Hg) in Hn.
        destruct Hn as (k & data & cs & H1 & H2 & H3).
        exists k, data, c, cs. repeat split; auto.
        apply In_dedup_first. rewrite <- Hkeys. unfold keys.
        apply in_map_iff. now exists (c, st).
    + intros (Ht & k & data & c & cs & H1 & H2 & H3 & Hc).
      assert (Hcats : exists cats, get t R = Some cats).
      { apply mem_get. apply mem_true_iff. rewrite Hk. now apply In_dedup_first. }
      destruct Hcats as (cats & Hcats).
      pose proof (get_stat_calculated config store R t c HR Ht Hc) as Hst.
      unfold get_stat in Hst. rewrite Hcats in Hst. cbn [bind] in Hst.
      apply get_In in Hcats.
      assert (Hn : 0 < Z.of_nat (List.length (judged_stats cats))).
      { apply judged_stats_nonempty. do 2 eexists. split; [apply get_In; exact Hst|].
        apply (judged_calculated config store R t cats c _ HR Hcats Hst).
        now exists k, data, cs. }
      apply in_map_iff. eexists (t, _, _). split; [reflexivity|].
      apply sort_reverse_In, In_standings.
      exists cats. split; [exact Hcats|]. split; [reflexivity|].
      split; [exact Hn | reflexivity].
Qed.

(** X9. In the overall standings of a computed table, of two teams with
    equal overall score the one listed first comes first in the configured
    team list. *)
Theorem standings_ties_in_configuration_order
    (config : Config) (store : ScoreStore) (R : TeamScores) (r : list Standing)
    (x y : Standing) :
  calculate_all_team_scores config store = Some R ->
  overall_standings R = Some r ->
  before x y r -> standing_score x = standing_score y ->
  (index_of (standing_team x) (teams config)
   < index_of (standing_team y) (teams config))%nat.
Proof.
  intros HR Hr Hb Heq.
  rewrite overall_standings_eq in Hr. injection Hr as <-.
  apply sort_reverse_stable in Hb; [|exact Heq].
  apply standings_before in Hb.
  rewrite (keys_calculated _ _ _ HR) in Hb.
  now apply before_dedup_first_index.
Qed.


(** ** The metric cards of the leaderboard *)





Lemma count_distinct_le (l : list string) :
  (count_distinct l <= List.length l)%nat.
Proof.
  unfold count_distinct. induction l as [|x l IH]; cbn; auto.
  destruct (in_dec string_dec x l); cbn; lia.
Qed.

Lemma count_distinct_incl (l l' : list string) :
  incl l l' -> (count_distinct l <= List.length l')%nat.
Proof.
  intros H. unfold count_distinct. apply NoDup_incl_length.
  - apply NoDup_nodup.
  - intros x Hx. apply H. now apply nodup_In in Hx.
Qed.

(** X12. The "Teams Judged" and "Judges Participated" counts never exceed
    the number of scoring sessions; when every submission names a
    configured team (judge), the count does not exceed the number of
    configured teams (judges). *)
Theorem progress_counts_bounded (config : Config) (store : ScoreStore) :
  (judged_teams store <= total_scores store)%nat /\
  (judges_participated store <= total_scores store)%nat /\
  ((forall e, In e store -> In (team (snd e)) (teams config)) ->
   (judged_teams store <= List.length (teams config))%nat) /\
  ((forall e, In e store -> In (judge (snd e)) (judges config)) ->
   (judges_participated store <= List.length (judges config))%nat).
Proof.
  unfold judged_teams, judges_participated, total_scores, values.
  repeat split.
  - etransitivity; [apply count_distinct_le|]. now rewrite !length_map.
  - etransitivity; [apply count_distinct_le|]. now rewrite !length_map.
  - intros H. apply count_distinct_incl. intros t Ht.
    apply in_map_iff in Ht. destruct Ht as (d & <- & Hd).
    apply in_map_iff in Hd. destruct Hd as (e & <- & He). auto.
  - intros H. apply count_distinct_incl. intros j Hj.
    apply in_map_iff in Hj. destruct Hj as (d & <- & Hd).
    apply in_map_iff in Hd. destruct Hd as (e & <- & He). auto.
Qed.

(** ** The podium *)

Section Podium.
Context {A : Type}.

Lemma skipn_nth_error (l : list A) : forall i w,
  nth_error l i = Some w -> skipn i l = w :: skipn (S i) l.
Proof.
  induction l as [|x l IH]; intros [|i] w H; cbn in *; try discriminate.
  - now injection H as ->.
  - now apply IH.
Qed.

Lemma podium_cards (l : list A) : forall n i cards,
  (i + n <= List.length l)%nat ->
  for_each
    (fun cards' j =>
       w <- nth_error l j ;; Some (cards' ++ [(S j, medal_of j, w)]))
    (seq i n) cards
  = Some (cards ++ cards_from i (firstn n (skipn i l))).
Proof.
  induction n as [|n IH]; intros i cards Hle; cbn [seq for_each firstn].
  - cbn. now rewrite app_nil_r.
  - destruct (nth_error l i) as [w|] eqn:E.
    + cbn [bind]. rewrite IH by lia.
      rewrite (skipn_nth_error l i w E). cbn [firstn cards_from].
      now rewrite <- app_assoc.
    + apply nth_error_None in E. lia.
Qed.

Lemma podium_eq (l : list A) : podium l = Some (cards_from 0 (firstn 3 l)).
Proof.
  unfold podium. rewrite podium_cards by lia. cbn [app skipn].
  do 2 f_equal.
  destruct l as [|a [|b [|c l]]]; reflexivity.
Qed.

Lemma cards_from_snd (ws : list A) : forall i, map snd (cards_from i ws) = ws.
Proof. induction ws as [|w ws IH]; intros i; cbn; [|rewrite IH]; auto. Qed.

Lemma StronglySorted_app_inv (R : A -> A -> Prop) (l1 l2 : list A) :
  StronglySorted R (l1 ++ l2) ->
  forall x y, In x l1 -> In y l2 -> R x y.
Proof.
  induction l1 as [|a l1 IH]; cbn; intros Hs x y Hx Hy; [contradiction|].
  inversion Hs as [|? ? Hs' Hall]; subst.
  destruct Hx as [<- | Hx].
  - rewrite Forall_forall in Hall. apply Hall. apply in_or_app. now right.
  - eapply IH; eauto.
Qed.

End Podium.

(** X13. The podium of a category always renders: it shows the first
    three entries of the ranking (fewer if the ranking is shorter), no team
    left off it has a higher percentage than a team on it, and the first
    card, rank 1 with the gold medal, holds a team of highest percentage. *)
Theorem podium_of_ranking (config : Config) (ts : TeamScores) (c : string) :
  In c (all_categories config) ->
  exists r p,
    get c (get_category_winners config ts) = Some r /\
    podium r = Some p /\
    map snd p = firstn 3 r /\
    (forall w y, In w (firstn 3 r) -> In y (skipn 3 r) -> (snd y <= snd w)%Qc) /\
    match r with
    | [] => p = []
    | w :: _ =>
        hd_error p = Some (1%nat, Gold, w) /\
        forall y, In y r -> (snd y <= snd w)%Qc
    end.
Proof.
  intros Hc.
  pose proof (sort_reverse_sorted snd (flat_map (candidate c) ts)) as Hs.
  rewrite get_category_winners_get.
  destruct (in_dec string_dec c (all_categories config)); [|contradiction].
  generalize dependent (sort_reverse snd (flat_map (candidate c) ts)).
  intros r Hs. exists r, (cards_from 0 (firstn 3 r)).
  split; [reflexivity|].
  split; [apply podium_eq|]. split; [apply cards_from_snd|]. split.
  - intros w y Hw Hy.
    rewrite <- (firstn_skipn 3 r) in Hs.
    exact (StronglySorted_app_inv _ _ _ Hs w y Hw Hy).
  - destruct r as [|w r']; [reflexivity|].
    split; [reflexivity|].
    intros y [<- | Hy]; [apply Qcle_refl|].
    inversion Hs as [|? ? _ Hall]; subst.
    rewrite Forall_forall in Hall. now apply Hall.
Qed.

(** ** Team navigation *)

Lemma list_index_in_range {A : Type} (l : list A) (i : Z) :
  0 <= i < Z.of_nat (List.length l) -> exists x, list_index l i = Some x.
Proof.
  intros [H0 H1]. unfold list_index.
  apply Z.leb_le in H0 as E. rewrite E.
  destruct (nth_error l (Z.to_nat i)) as [x|] eqn:En; [eauto|].
  apply nth_error_None in En. lia.
Qed.

Lemma valid_team_index_range (teams : list string) (i : Z) :
  0 <= i < Z.of_nat (List.length teams) -> valid_team_index teams i.
Proof.
  intros H. split; [unfold clamp_team_index; lia | now apply list_index_in_range].
Qed.

(** X14. With at least one configured team, the clamped team index always
    selects a team, it is the stored index when that is in range, and the
    index stored by "Previous Team" or "Next Team" is in range again. *)
Theorem team_index_stays_valid (teams : list string) (team_index : Z) :
  teams <> [] ->
  let i := clamp_team_index teams team_index in
  valid_team_index teams i /\
  (0 <= team_index < Z.of_nat (List.length teams) -> i = team_index) /\
  (forall j, prev_team i = Some j -> valid_team_index teams j) /\
  (forall j, next_team teams i = Some j -> valid_team_index teams j).
Proof.
  intros Hne i.
  assert (Hlen : 0 < Z.of_nat (List.length teams)).
  { destruct teams; [congruence | cbn; lia]. }
  assert (Hi : 0 <= i < Z.of_nat (List.length teams)).
  { unfold i, clamp_team_index. lia. }
  split; [now apply valid_team_index_range|].
  split; [unfold i, clamp_team_index; lia|].
  split; intros j Hj; apply valid_team_index_range.
  - unfold prev_team in Hj. destruct (0 <? i) eqn:E; [|discriminate].
    apply Z.ltb_lt in E. injection Hj as <-. lia.
  - unfold next_team in Hj.
    destruct (i <? Z.of_nat (List.length teams) - 1) eqn:E; [|discriminate].
    apply Z.ltb_lt in E. injection Hj as <-. lia.
Qed.

(** ** Saving and saving again *)

Lemma cat_contribs_length_keys c (its1 its2 : dict (dict Z)) :
  keys its1 = keys its2 ->
  List.length (cat_contribs c its1) = List.length (cat_contribs c its2).
Proof.
  unfold keys. revert its2.
  induction its1 as [|[c1 cs1] its1 IH]; intros [|[c2 cs2] its2] H;
    cbn in H; try discriminate; auto.
  injection H as -> H.
  cbn [cat_contribs flat_map fst snd]. rewrite !length_app.
  fold (cat_contribs c its1). fold (cat_contribs c its2).
  rewrite (IH its2 H). now destruct (String.eqb c2 c).
Qed.

Lemma contribs_set_length t c k (d1 d2 : Submission) (store : ScoreStore) :
  team d1 = team d2 -> keys (scores d1) = keys (scores d2) ->
  List.length (contribs t c (set k d1 store))
  = List.length (contribs t c (set k d2 store)).
Proof.
  intros Ht Hk.
  assert (Hone : List.length (contribs t c [(k, d1)])
                 = List.length (contribs t c [(k, d2)])).
  { cbn [contribs flat_map snd]. rewrite !app_nil_r, Ht.
    destruct (String.eqb (team d2) t); auto.
    now apply cat_contribs_length_keys. }
  induction store as [|[k0 d0] store IH]; cbn [set]; auto.
  destruct (String.eqb k k0).
  - change ((k, d1) :: store) with ([(k, d1)] ++ store).
    change ((k, d2) :: store) with ([(k, d2)] ++ store).
    now rewrite !contribs_app, !length_app, Hone.
  - change ((k0, d0) :: set k d1 store) with ([(k0, d0)] ++ set k d1 store).
    change ((k0, d0) :: set k d2 store) with ([(k0, d0)] ++ set k d2 store).
    now rewrite !contribs_app, !length_app, IH.
Qed.

Lemma contribs_set_other t c k (d1 d2 : Submission) (store : ScoreStore) :
  team d1 = team d2 -> team d1 <> t ->
  contribs t c (set k d1 store) = contribs t c (set k d2 store).
Proof.
  intros Ht Hne.
  assert (Hone : forall d, team d = team d1 -> contribs t c [(k, d)] = []).
  { intros d Hd. cbn [contribs flat_map snd]. rewrite app_nil_r, Hd.
    destruct (String.eqb (team d1) t) eqn:E; auto.
    apply String.eqb_eq in E. contradiction. }
  induction store as [|[k0 d0] store IH]; cbn [set].
  - now rewrite !Hone.
  - destruct (String.eqb k k0).
    + change ((k, d1) :: store) with ([(k, d1)] ++ store).
      change ((k, d2) :: store) with ([(k, d2)] ++ store).
      now rewrite !contribs_app, !Hone.
    + change ((k0, d0) :: set k d1 store) with ([(k0, d0)] ++ set k d1 store).
      change ((k0, d0) :: set k d2 store) with ([(k0, d0)] ++ set k d2 store).
      now rewrite !contribs_app, IH.
Qed.

Lemma length_set {V : Type} k (v : V) (d : dict V) :
  List.length (set k v d)
  = if mem k d then List.length d else S (List.length d).
Proof.
  rewrite <- (length_map fst (set k v d)), <- (length_map fst d).
  change (map fst (set k v d)) with (keys (set k v d)).
  rewrite keys_set. destruct (mem k d); auto.
  rewrite length_app. cbn. unfold keys. lia.
Qed.

(** X15. After a save, the store holds the saved submission under the
    key of the judge and team, every other key holds what it held before,
    and the store has grown by one entry or, if the key was present, by
    none. *)
Theorem save_then_lookup
    (j t : string) (s : dict (dict Z)) (n w : string) (store : ScoreStore) :
  get (judge_key j t) (save_action j t s n w store)
  = Some {| judge := j; team := t; scores := s; notes := n; timestamp := w |} /\
  (forall k, k <> judge_key j t ->
             get k (save_action j t s n w store) = get k store) /\
  List.length (save_action j t s n w store)
  = (if mem (judge_key j t) store
     then List.length store else S (List.length store)) /\
  (NoDup (keys store) -> NoDup (keys (save_action j t s n w store))).
Proof.
  unfold save_action. split; [apply get_set_eq|].
  split; [intros k Hk; apply get_set_neq; congruence|].
  split; [apply length_set|].
  intros Hnd. rewrite keys_set.
  destruct (mem (judge_key j t) store) eqn:E; auto.
  apply NoDup_app; auto.
  - repeat constructor. intros [].
  - intros x Hx [<- | []].
    apply mem_true_iff in Hx. congruence.
Qed.

(** X16. A judge who saves again for the same team, with scores for the
    same categories, replaces the earlier entry: the store keeps its size,
    every [judges_count] stays what it was after the first save, and the
    statistics of the other teams do not change. *)
Theorem resubmission_replaces
    (config : Config) (j t : string) (s1 s2 : dict (dict Z))
    (n1 n2 w1 w2 : string) (store : ScoreStore) :
  keys s1 = keys s2 ->
  let store1 := save_action j t s1 n1 w1 store in
  let store2 := save_action j t s2 n2 w2 store1 in
  List.length store2 = List.length store1 /\
  exists R1 R2,
    calculate_all_team_scores config store1 = Some R1 /\
    calculate_all_team_scores config store2 = Some R2 /\
    (forall t' c,
        option_map judges_count (get_stat R2 t' c)
        = option_map judges_count (get_stat R1 t' c)) /\
    (forall t' c, t' <> t -> get_stat R2 t' c = get_stat R1 t' c).
Proof.
  intros Hk store1 store2. unfold store2, store1.
  rewrite save_action_replaces. unfold save_action.
  split.
  { rewrite !length_set. reflexivity. }
  set (d1 := {| judge := j; team := t; scores := s1; notes := n1; timestamp := w1 |}).
  set (d2 := {| judge := j; team := t; scores := s2; notes := n2; timestamp := w2 |}).
  destruct (calculate_spec config (set (judge_key j t) d1 store)) as (R1 & HR1 & _ & Hg1).
  destruct (calculate_spec config (set (judge_key j t) d2 store)) as (R2 & HR2 & _ & Hg2).
  exists R1, R2. split; [exact HR1|]. split; [exact HR2|]. split.
  - intros t' c. rewrite Hg1, Hg2.
    destruct (in_dec string_dec t' (teams config)); auto.
    destruct (in_dec string_dec c (all_categories config)); auto.
    cbn [option_map]. rewrite !run_count. do 3 f_equal.
    apply contribs_set_length; [reflexivity | symmetry; exact Hk].
  - intros t' c Hne. rewrite Hg1, Hg2.
    destruct (in_dec string_dec t' (teams config)); auto.
    destruct (in_dec string_dec c (all_categories config)); auto.
    do 2 f_equal. apply contribs_set_other; [reflexivity|].
    cbn. congruence.
Qed.

(** ** The scoring form *)

Section FoldSet.
Context {A V : Type}.
Variables (f : A -> string) (g : A -> V).

Lemma set_fresh k (v : V) (d : dict V) :
  ~ In k (keys d) -> set k v d = d ++ [(k, v)].
Proof.
  unfold keys. induction d as [|[k0 v0] d IH]; cbn; intros H; auto.
  destruct (String.eqb k k0) eqn:E.
  - apply String.eqb_eq in E. exfalso. auto.
  - rewrite IH; auto.
Qed.

Lemma fold_set_fresh (l : list A) : forall (d : dict V),
  NoDup (map f l) ->
  (forall x, In x l -> ~ In (f x) (keys d)) ->
  fold_left (fun d' x => set (f x) (g x) d') l d
  = d ++ map (fun x => (f x, g x)) l.
Proof.
  induction l as [|x l IH]; intros d Hnd Hfresh; cbn [fold_left map].
  - now rewrite app_nil_r.
  - inversion Hnd as [|? ? Hnin Hnd']; subst.
    rewrite set_fresh by (apply Hfresh; now left).
    rewrite IH; auto.
    + now rewrite <- app_assoc.
    + intros y Hy Hin. unfold keys in Hin. rewrite map_app in Hin.
      apply in_app_or in Hin. destruct Hin as [Hin | [Hin | []]].
      * apply (Hfresh y); [now right | exact Hin].
      * cbn in Hin. apply Hnin. rewrite Hin. now apply in_map.
Qed.

Lemma fold_set_fresh_nil (l : list A) :
  NoDup (map f l) ->
  fold_left (fun d' x => set (f x) (g x) d') l [] = map (fun x => (f x, g x)) l.
Proof. intros H. rewrite fold_set_fresh; auto. Qed.

End FoldSet.

Lemma flat_map_unique {A B : Type} (f : A -> string) (g : A -> list B)
    (l : list A) (x : A) :
  NoDup (map f l) -> In x l ->
  flat_map (fun y => if String.eqb (f y) (f x) then g y else []) l = g x.
Proof.
  induction l as [|y l IH]; cbn [map flat_map]; intros Hnd Hin; [contradiction|].
  inversion Hnd as [|? ? Hnin Hnd']; subst.
  destruct Hin as [-> | Hin].
  - rewrite String.eqb_refl.
    assert (E : flat_map (fun y => if String.eqb (f y) (f x) then g y else []) l = []).
    { clear IH Hnd Hnd'. induction l as [|z l IHl]; cbn; auto.
      destruct (String.eqb (f z) (f x)) eqn:E.
      - apply String.eqb_eq in E. exfalso. apply Hnin. cbn. auto.
      - apply IHl. intros H. apply Hnin. now right. }
    rewrite E. apply app_nil_r.
  - destruct (String.eqb (f y) (f x)) eqn:E.
    + apply String.eqb_eq in E. exfalso. apply Hnin. rewrite E. now apply in_map.
    + cbn [app]. now apply IH.
Qed.

Lemma sum_map_bounds {A : Type} (f g : A -> Z) (l : list A) :
  (forall x, In x l -> 0 <= f x <= g x) ->
  0 <= sum (map f l) <= sum (map g l).
Proof.
  induction l as [|x l IH]; intros H; cbn [map].
  - cbn. lia.
  - rewrite !sum_cons.
    assert (0 <= f x <= g x) by (apply H; now left).
    assert (0 <= sum (map f l) <= sum (map g l)) by (apply IH; intros; apply H; now right).
    lia.
Qed.

Section FormFacts.

Variable config : Config.
Variable value : string -> string -> Z.
Hypothesis Hunique : unique_names config.

Lemma collect_category_eq cat :
  In cat (categories config) ->
  collect_category value cat
  = map (fun crit => (crit_name crit, value (cat_name cat) (crit_name crit)))
        (criteria cat).
Proof.
  intros Hin. unfold collect_category.
  apply (fold_set_fresh_nil crit_name
           (fun crit => value (cat_name cat) (crit_name crit))).
  now apply Hunique.
Qed.

Lemma collect_form_eq :
  collect_form config value
  = map (fun cat => (cat_name cat, collect_category value cat)) (categories config).
Proof.
  unfold collect_form.
  apply (fold_set_fresh_nil cat_name (collect_category value)).
  apply Hunique.
Qed.

Lemma category_max_unique cat :
  In cat (categories config) ->
  category_max config (cat_name cat) = sum (map max_score (criteria cat)).
Proof.
  intros Hin. unfold category_max.
  rewrite (flat_map_unique cat_name (fun cat' => map max_score (criteria cat'))); auto.
  apply Hunique.
Qed.

Lemma cat_contribs_collect_form cat :
  In cat (categories config) ->
  cat_contribs (cat_name cat) (collect_form config value)
  = [sum (map (fun crit => value (cat_name cat) (crit_name crit)) (criteria cat))].
Proof.
  intros Hin. rewrite collect_form_eq. unfold cat_contribs.
  rewrite flat_map_concat_map, map_map, <- flat_map_concat_map. cbn [fst snd].
  rewrite (flat_map_unique cat_name
             (fun cat' => [sum (values (collect_category value cat'))]));
    [|apply Hunique | exact Hin].
  rewrite collect_category_eq by exact Hin.
  unfold values. now rewrite map_map.
Qed.

Lemma form_contribution_within c s :
  slider_range config value ->
  In c (all_categories config) ->
  In s (cat_contribs c (collect_form config value)) ->
  0 <= s <= category_max config c.
Proof.
  intros Hrange Hc Hs. unfold all_categories in Hc.
  apply in_map_iff in Hc. destruct Hc as (cat & <- & Hcat).
  rewrite cat_contribs_collect_form in Hs by exact Hcat.
  destruct Hs as [<- | []].
  rewrite category_max_unique by exact Hcat.
  apply sum_map_bounds. intros crit Hcrit. now apply Hrange.
Qed.

End FormFacts.

Lemma form_contribs_within config store t c :
  unique_names config -> form_store config store ->
  In c (all_categories config) ->
  contribs_within 0 (category_max config c) t c store.
Proof.
  intros Hu Hform Hc. unfold contribs_within, contribs.
  apply Forall_forall. intros s Hs.
  apply in_flat_map in Hs. destruct Hs as (e & He & Hs).
  destruct (String.eqb (team (snd e)) t); [|contradiction].
  destruct (Hform e He) as (value & Hrange & Hscores).
  rewrite Hscores in Hs.
  now apply (form_contribution_within config value Hu c s).
Qed.

Lemma run_within (cmax : Z) (l : list Z) :
  Forall (fun s => 0 <= s <= cmax) l ->
  ((Z2Qc 0 <= percentage (run cmax l zero_stat))%Qc /\
   (percentage (run cmax l zero_stat) <= Z2Qc 100)%Qc) /\
  (l <> [] ->
   (Z2Qc 0 <= avg_score (run cmax l zero_stat))%Qc /\
   (avg_score (run cmax l zero_stat) <= Z2Qc cmax)%Qc).
Proof.
  intros Hall.
  assert (H100 : (Z2Qc 0 <= Z2Qc 100)%Qc) by (apply Z2Qc_le; lia).
  destruct l as [|s l].
  - split; [|congruence]. cbn. split; [apply Qcle_refl | exact H100].
  - assert (Hne : s :: l <> []) by discriminate.
    destruct (mean_bounds _ _ _ Hne Hall) as [Ha Hb].
    split; [|intros _; now rewrite run_mean].
    destruct (run_judged cmax (s :: l) zero_stat Hne) as [_ ->].
    destruct (0 <? cmax) eqn:Ec.
    + apply Z.ltb_lt in Ec. rewrite run_mean by exact Hne.
      now apply percentage_bounds.
    + split; [apply Qcle_refl | exact H100].
Qed.

Lemma all_stats_get_stat config store R st :
  calculate_all_team_scores config store = Some R ->
  In st (all_stats R) -> exists t c, get_stat R t c = Some st.
Proof.
  intros HR Hin. unfold all_stats in Hin.
  apply in_flat_map in Hin. destruct Hin as (cats & Hcats & Hst).
  unfold values in Hcats, Hst.
  apply in_map_iff in Hcats. destruct Hcats as ([t cats'] & E & Hrow).
  cbn in E. subst cats'.
  apply in_map_iff in Hst. destruct Hst as ([c st'] & E & Hcell).
  cbn in E. subst st'.
  exists t, c. unfold get_stat.
  rewrite (In_get t cats R); auto.
  - cbn [bind]. apply In_get; auto.
    rewrite (row_keys_calculated config store R t cats HR Hrow).
    apply NoDup_dedup_first.
  - rewrite (keys_calculated _ _ _ HR). apply NoDup_dedup_first.
Qed.


(** X18. When every submission of the store was collected by the form of
    the current configuration (unique names, sliders within their range),
    every percentage of the result lies between 0 and 100 and every
    average of a judged team/category between 0 and the category
    maximum. *)
Theorem form_scores_within_range (config : Config) (store : ScoreStore) :
  unique_names config -> form_store config store ->
  exists R,
    calculate_all_team_scores config store = Some R /\
    (forall t c st,
        get_stat R t c = Some st ->
        ((Z2Qc 0 <= percentage st)%Qc /\ (percentage st <= Z2Qc 100)%Qc) /\
        (0 < judges_count st ->
         (Z2Qc 0 <= avg_score st)%Qc /\
         (avg_score st <= Z2Qc (category_max config c))%Qc)) /\
    percentages_within (Z2Qc 0) (Z2Qc 100) R.
Proof.
  intros Hu Hform.
  destruct (calculate_spec config store) as (R & HR & _).
  exists R. split; [exact HR|].
  assert (Hcell : forall t c st,
             get_stat R t c = Some st ->
             ((Z2Qc 0 <= percentage st)%Qc /\ (percentage st <= Z2Qc 100)%Qc) /\
             (0 < judges_count st ->
              (Z2Qc 0 <= avg_score st)%Qc /\
              (avg_score st <= Z2Qc (category_max config c))%Qc)).
  { intros t c st Hst.
    destruct (get_stat_calculated_inv _ _ _ _ _ _ HR Hst) as (_ & Hc & ->).
    pose proof (form_contribs_within config store t c Hu Hform Hc) as Hall.
    destruct (run_within _ _ Hall) as [Hp Ha].
    split; [exact Hp|].
    intros Hn. apply Ha. intros E. rewrite run_count, E in Hn. cbn in Hn. lia. }
  split; [exact Hcell|].
  unfold percentages_within. apply Forall_forall. intros st Hst.
  apply filter_In in Hst. destruct Hst as [Hst _].
  destruct (all_stats_get_stat config store R st HR Hst) as (t & c & Hg).
  now apply (Hcell t c st).
Qed.

(** ** The score viewer *)

Lemma average_mean (l : list Z) : average l = Some (mean l).
Proof.
  destruct l as [|s l]; [reflexivity|].
  unfold average, mean. apply true_div_ok. apply Z2Qc_nonzero. cbn. lia.
Qed.

Lemma mean_div (l : list Z) :
  mean l = (Z2Qc (sum l) / Z2Qc (Z.of_nat (List.length l)))%Qc.
Proof.
  destruct l as [|s l]; [|reflexivity].
  cbn [mean List.length]. change (Z.of_nat 0) with 0. change (sum []) with 0.
  rewrite Z2Qc_0. unfold Qcdiv. now rewrite Qcmult_0_l.
Qed.

Lemma for_each_pure {S A : Type} (body : S -> A -> option S) (h : S -> A -> S)
    (l : list A) :
  (forall s x, In x l -> body s x = Some (h s x)) ->
  forall s, for_each body l s = Some (fold_left h l s).
Proof.
  induction l as [|x l IH]; intros Hb s; cbn [for_each fold_left]; auto.
  rewrite Hb by now left. cbn [bind]. apply IH.
  intros s' y Hy. apply Hb. now right.
Qed.

Lemma avg_scores_category_eq (team_scores : ScoreStore) (A0 : dict (dict Qc)) cat :
  NoDup (map crit_name (criteria cat)) ->
  avg_scores_category team_scores A0 cat
  = Some (set (cat_name cat) (criterion_averages team_scores cat) A0).
Proof.
  intros Hnd. unfold avg_scores_category, criterion_averages.
  set (a := fun crit =>
              mean (criterion_scores (cat_name cat) (crit_name crit) team_scores)).
  rewrite (for_each_pure _
             (fun acc crit =>
                update (cat_name cat) (set (crit_name crit) (a crit)) acc)).
  - f_equal.
    assert (G : forall l d,
               fold_left
                 (fun acc crit =>
                    update (cat_name cat) (set (crit_name crit) (a crit)) acc)
                 l (set (cat_name cat) d A0)
               = set (cat_name cat)
                     (fold_left (fun d' crit => set (crit_name crit) (a crit) d') l d)
                     A0).
    { induction l as [|crit l IH]; intros d; cbn [fold_left]; auto.
      now rewrite update_set, IH. }
    rewrite G. f_equal. now apply (fold_set_fresh_nil crit_name a).
  - intros acc crit _. now rewrite average_mean.
Qed.

Lemma avg_scores_eq config (team_scores : ScoreStore) :
  unique_names config ->
  avg_scores config team_scores
  = Some (map (fun cat => (cat_name cat, criterion_averages team_scores cat))
              (categories config)).
Proof.
  intros [Hcats Hcrits]. unfold avg_scores.
  rewrite (for_each_pure _
             (fun A0 cat =>
                set (cat_name cat) (criterion_averages team_scores cat) A0)).
  - f_equal.
    now apply (fold_set_fresh_nil cat_name (criterion_averages team_scores)).
  - intros A0 cat Hcat. apply avg_scores_category_eq. now apply Hcrits.
Qed.

Lemma get_map_unique {A V : Type} (f : A -> string) (g : A -> V)
    (l : list A) (x : A) :
  NoDup (map f l) -> In x l ->
  get (f x) (map (fun y => (f y, g y)) l) = Some (g x).
Proof.
  intros Hnd Hin. apply In_get.
  - unfold keys. now rewrite map_map.
  - apply in_map_iff. now exists x.
Qed.

Lemma criterion_scores_In cat crit (ts : ScoreStore) v :
  In v (criterion_scores cat crit ts) ->
  exists e cs,
    In e ts /\ get cat (scores (snd e)) = Some cs /\ get crit cs = Some v.
Proof.
  unfold criterion_scores, values. intros H.
  apply in_map_iff in H. destruct H as (data & <- & H).
  apply filter_In in H. destruct H as [Hin Hhas].
  apply in_map_iff in Hin. destruct Hin as (e & <- & He).
  unfold has_criterion in Hhas. apply andb_prop in Hhas. destruct Hhas as [_ Hhas].
  unfold get_or. destruct (get cat (scores (snd e))) as [cs|] eqn:Ecs; [|discriminate].
  apply mem_get in Hhas. destruct Hhas as (v0 & Hv).
  exists e, cs. rewrite Ecs, Hv. repeat split; auto.
Qed.

(** X19. With unique names the viewer computes an average for every
    configured criterion of every configured category, in configuration
    order; the average is 0 when no submission holds the criterion and
    otherwise lies between any two bounds of the submitted values. *)
Theorem criterion_averages_cover_configuration
    (config : Config) (team_scores : ScoreStore) :
  unique_names config ->
  exists A,
    avg_scores config team_scores = Some A /\
    shape A
    = map (fun cat => (cat_name cat, map crit_name (criteria cat)))
          (categories config) /\
    forall cat crit,
      In cat (categories config) -> In crit (criteria cat) ->
      exists inner a,
        get (cat_name cat) A = Some inner /\
        get (crit_name crit) inner = Some a /\
        (criterion_scores (cat_name cat) (crit_name crit) team_scores = [] ->
         a = Z2Qc 0) /\
        forall lo hi,
          criterion_scores (cat_name cat) (crit_name crit) team_scores <> [] ->
          (forall e cs v,
              In e team_scores ->
              get (cat_name cat) (scores (snd e)) = Some cs ->
              get (crit_name crit) cs = Some v -> lo <= v <= hi) ->
          (Z2Qc lo <= a)%Qc /\ (a <= Z2Qc hi)%Qc.
Proof.
  intros Hu. eexists. split; [now apply avg_scores_eq|]. split.
  - unfold shape. rewrite map_map. apply map_ext. intros cat.
    cbn [fst snd]. unfold criterion_averages, keys. now rewrite map_map.
  - intros cat crit Hcat Hcrit. destruct Hu as [Hcats Hcrits].
    exists (criterion_averages team_scores cat).
    exists (mean (criterion_scores (cat_name cat) (crit_name crit) team_scores)).
    split; [now apply (get_map_unique cat_name (criterion_averages team_scores))|].
    split.
    { unfold criterion_averages.
      apply (get_map_unique crit_name
               (fun crit0 => mean (criterion_scores (cat_name cat) (crit_name crit0)
                                     team_scores))); auto. }
    split; [intros E; now rewrite E|].
    intros lo hi Hne Hall.
    destruct (criterion_scores (cat_name cat) (crit_name crit) team_scores)
      as [|s l] eqn:E; [congruence|].
    apply (mean_bounds lo hi (s :: l)); [discriminate|].
    apply Forall_forall. intros v Hv. rewrite <- E in Hv.
    apply criterion_scores_In in Hv. destruct Hv as (e & cs & He & Hcs & Hv).
    now apply (Hall e cs v).
Qed.

(** ** The viewer's totals and the leaderboard's averages *)

Lemma filter_all {A : Type} (f : A -> bool) (l : list A) :
  (forall x, In x l -> f x = true) -> filter f l = l.
Proof.
  induction l as [|x l IH]; intros H; cbn; auto.
  rewrite (H x) by now left. f_equal. apply IH. intros y Hy. apply H. now right.
Qed.

Lemma fsum_Qc_sum (l : list Qc) : fsum l = Qc_sum l.
Proof.
  unfold fsum.
  assert (G : forall l a, fold_left Qcplus l a = (a + Qc_sum l)%Qc).
  { clear l. induction l as [|x l IH]; intros a; cbn [fold_left].
    - rewrite Qc_sum_nil. ring.
    - rewrite IH, Qc_sum_cons. ring. }
  rewrite G, Z2Qc_0. ring.
Qed.

Lemma Qc_sum_map_div {A : Type} (F : A -> Z) (N : Qc) (l : list A) :
  Qc_sum (map (fun x => Z2Qc (F x) / N)%Qc l) = (Z2Qc (sum (map F l)) / N)%Qc.
Proof.
  induction l as [|x l IH]; cbn [map].
  - rewrite Qc_sum_nil. change (sum []) with 0. rewrite Z2Qc_0.
    unfold Qcdiv. now rewrite Qcmult_0_l.
  - rewrite Qc_sum_cons, IH, sum_cons, Z2Qc_add. unfold Qcdiv. ring.
Qed.

Lemma sum_map_add {A : Type} (a b : A -> Z) (l : list A) :
  sum (map (fun x => a x + b x) l) = sum (map a l) + sum (map b l).
Proof.
  induction l as [|x l IH]; cbn [map]; [reflexivity|].
  rewrite !sum_cons, IH. lia.
Qed.

Lemma sum_swap {A B : Type} (f : A -> B -> Z) (es : list A) (js : list B) :
  sum (map (fun j => sum (map (fun e => f e j) es)) js)
  = sum (map (fun e => sum (map (fun j => f e j) js)) es).
Proof.
  induction js as [|j js IH]; cbn [map].
  - change (sum []) with 0. induction es as [|e es IHes]; cbn [map]; auto.
  - rewrite sum_cons, IH.
    rewrite <- sum_map_add. f_equal. apply map_ext. intros e.
    now rewrite sum_cons.
Qed.

Lemma get_or_keys_values (cs : dict Z) :
  NoDup (keys cs) -> map (fun k => get_or k 0 cs) (keys cs) = values cs.
Proof.
  intros Hnd. unfold keys, values. rewrite map_map.
  apply map_ext_in. intros [k v] Hin. cbn [fst snd].
  unfold get_or. now rewrite (In_get k v cs Hnd Hin).
Qed.

Lemma run_mean_all cmax (l : list Z) : avg_score (run cmax l zero_stat) = mean l.
Proof.
  destruct l as [|s l]; [reflexivity|].
  now rewrite run_mean by discriminate.
Qed.

Section ViewerFacts.

Variables (config : Config) (store : ScoreStore) (t : string) (cat : Category).
Hypothesis Hunique : unique_names config.
Hypothesis Hcat : In cat (categories config).
Hypothesis Hcomplete :
  forall e, In e store -> team (snd e) = t -> complete_for cat (snd e).

Lemma viewer_submission_complete data : In data (team_submissions t store) -> complete_for cat data.
Proof.
  unfold team_submissions, values, scores_of_team, items. intros H.
  apply in_map_iff in H. destruct H as (e & <- & He).
  apply filter_In in He. destruct He as [He Ht].
  apply String.eqb_eq in Ht. auto.
Qed.

Lemma viewer_criterion_scores crit :
  In crit (criteria cat) ->
  criterion_scores (cat_name cat) (crit_name crit) (scores_of_team t store)
  = map (fun data =>
           get_or (crit_name crit) 0 (get_or (cat_name cat) no_scores (scores data)))
        (team_submissions t store).
Proof.
  intros Hcrit. unfold criterion_scores. fold (team_submissions t store). f_equal.
  apply filter_all. intros data Hdata.
  destruct (viewer_submission_complete data Hdata) as (_ & cs & Hcs & Hkeys).
  unfold has_criterion, mem. rewrite Hcs. cbn [andb].
  destruct (get (crit_name crit) cs) eqn:E; auto.
  apply get_None_not_In in E. exfalso. apply E. rewrite Hkeys. now apply in_map.
Qed.

Lemma viewer_contribs :
  contribs t (cat_name cat) store
  = map (fun data => sum (values (get_or (cat_name cat) no_scores (scores data)))) (team_submissions t store).
Proof.
  unfold team_submissions, values, scores_of_team, items.
  induction store as [|e st IH]; auto.
  change (contribs t (cat_name cat) (e :: st))
    with ((if String.eqb (team (snd e)) t
           then cat_contribs (cat_name cat) (scores (snd e)) else [])
          ++ contribs t (cat_name cat) st).
  rewrite IH by (intros e' He'; apply Hcomplete; now right).
  cbn [filter]. destruct (String.eqb (team (snd e)) t) eqn:E; auto.
  apply String.eqb_eq in E.
  destruct (Hcomplete e (or_introl eq_refl) E) as (Hnd & cs & Hcs & _).
  rewrite (cat_contribs_unique _ _ _ Hnd Hcs). cbn [map app].
  unfold get_or. now rewrite Hcs.
Qed.

Lemma viewer_submission_total data :
  In data (team_submissions t store) ->
  sum (map (fun crit =>
              get_or (crit_name crit) 0 (get_or (cat_name cat) no_scores (scores data)))
           (criteria cat))
  = sum (values (get_or (cat_name cat) no_scores (scores data))).
Proof.
  intros Hdata.
  destruct (viewer_submission_complete data Hdata) as (_ & cs & Hcs & Hkeys).
  assert (Eg : get_or (cat_name cat) no_scores (scores data) = cs)
    by (unfold get_or; now rewrite Hcs).
  rewrite Eg.
  rewrite <- (get_or_keys_values cs).
  - rewrite Hkeys. now rewrite map_map.
  - rewrite Hkeys. now apply Hunique.
Qed.

Lemma viewer_total :
  fsum (values (criterion_averages (scores_of_team t store) cat))
  = avg_score (run (category_max config (cat_name cat))
                   (contribs t (cat_name cat) store) zero_stat).
Proof.
  pose (g := fun (data : Submission) (crit : Criterion) =>
               get_or (crit_name crit) 0
                      (get_or (cat_name cat) no_scores (scores data))).
  rewrite run_mean_all, mean_div, viewer_contribs, length_map.
  rewrite fsum_Qc_sum. unfold criterion_averages, values at 1.
  rewrite map_map. cbn [snd].
  rewrite (map_ext_in _
             (fun crit =>
                (Z2Qc (sum (map (fun data => g data crit) (team_submissions t store)))
                 / Z2Qc (Z.of_nat (List.length (team_submissions t store))))%Qc)).
  - rewrite (Qc_sum_map_div (fun crit => sum (map (fun data => g data crit) (team_submissions t store)))).
    rewrite (sum_swap g).
    do 3 f_equal. apply map_ext_in. intros data Hdata.
    now apply viewer_submission_total.
  - intros crit Hcrit.
    rewrite mean_div, (viewer_criterion_scores crit Hcrit).
    now rewrite length_map.
Qed.

End ViewerFacts.


(** ** The progress bars of the viewer *)

Lemma progress_value_unit (score : Qc) (cmax : Z) :
  (0 < cmax -> (Z2Qc 0 <= score)%Qc /\ (score <= Z2Qc cmax)%Qc) ->
  exists p,
    progress_value score cmax = Some p /\
    (Z2Qc 0 <= p)%Qc /\ (p <= Z2Qc 1)%Qc.
Proof.
  intros H. unfold progress_value. destruct (0 <? cmax) eqn:E.
  - apply Z.ltb_lt in E. destruct (H E) as [H0 H1].
    rewrite true_div_ok by (apply Z2Qc_nonzero; lia).
    eexists. split; [reflexivity|].
    rewrite Z2Qc_0, Z2Qc_1 in *.
    apply Qcdiv_bounds.
    + now apply Z2Qc_pos.
    + now rewrite Qcmult_0_l.
    + now rewrite Qcmult_1_l.
  - eexists. split; [reflexivity|].
    split; [apply Qcle_refl | apply Z2Qc_le; lia].
Qed.

Lemma form_keys config value :
  unique_names config ->
  keys (collect_form config value) = all_categories config.
Proof.
  intros Hu. rewrite (collect_form_eq config value Hu).
  unfold keys, all_categories. now rewrite map_map.
Qed.

Lemma form_complete config value cat (data : Submission) :
  unique_names config -> In cat (categories config) ->
  scores data = collect_form config value ->
  complete_for cat data.
Proof.
  intros Hu Hcat Hs. unfold complete_for. rewrite Hs. split.
  - rewrite form_keys by exact Hu. apply Hu.
  - exists (collect_category value cat). split.
    + rewrite (collect_form_eq config value Hu).
      apply (get_map_unique cat_name (collect_category value)); auto. apply Hu.
    + rewrite (collect_category_eq config value Hu cat Hcat).
      unfold keys. now rewrite map_map.
Qed.

(** X21. For a store collected by the form of the current configuration,
    both progress bars of the viewer receive a value between 0 and 1: the
    bar of a judge's category total and the bar of the team's average
    total. *)
Theorem progress_values_within_unit
    (config : Config) (store : ScoreStore) (t : string) (cat : Category) :
  unique_names config -> form_store config store ->
  In cat (categories config) ->
  (forall e cs,
      In e store -> get (cat_name cat) (scores (snd e)) = Some cs ->
      exists p,
        progress_value (Z2Qc (category_score cs))
                       (category_max config (cat_name cat)) = Some p /\
        (Z2Qc 0 <= p)%Qc /\ (p <= Z2Qc 1)%Qc) /\
  exists A inner p,
    avg_scores config (scores_of_team t store) = Some A /\
    get (cat_name cat) A = Some inner /\
    progress_value (fsum (values inner)) (sum (map max_score (criteria cat)))
    = Some p /\
    (Z2Qc 0 <= p)%Qc /\ (p <= Z2Qc 1)%Qc.
Proof.
  intros Hu Hform Hcat.
  assert (Hc : In (cat_name cat) (all_categories config)).
  { unfold all_categories. now apply in_map. }
  split.
  - intros e cs He Hcs. apply progress_value_unit. intros _.
    destruct (Hform e He) as (value & Hrange & Hscores).
    assert (Hin : In (category_score cs)
                     (cat_contribs (cat_name cat) (collect_form config value))).
    { rewrite <- Hscores.
      rewrite (cat_contribs_unique (cat_name cat) cs (scores (snd e))); auto.
      - now left.
      - rewrite Hscores, form_keys by exact Hu. apply Hu. }
    pose proof (form_contribution_within config value Hu _ _ Hrange Hc Hin) as [H0 H1].
    split; now apply Z2Qc_le.
  - do 2 eexists.
    assert (Hcomplete : forall e, In e store -> team (snd e) = t ->
                                  complete_for cat (snd e)).
    { intros e He _. destruct (Hform e He) as (value & _ & Hscores).
      now apply (form_complete config value). }
    pose proof (viewer_total config store t cat Hu Hcat Hcomplete) as Htotal.
    pose proof (form_contribs_within config store t (cat_name cat) Hu Hform Hc) as Hall.
    destruct (run_within _ _ Hall) as [_ Ha].
    rewrite <- (category_max_unique config Hu cat Hcat).
    destruct (progress_value_unit
                (fsum (values (criterion_averages (scores_of_team t store) cat)))
                (category_max config (cat_name cat))) as (p & Hp & Hb).
    { intros Hpos. rewrite Htotal.
      destruct (contribs t (cat_name cat) store) as [|s l] eqn:E.
      - cbn. split; [apply Qcle_refl | apply Z2Qc_le; lia].
      - apply Ha. discriminate. }
    exists p. split; [now apply avg_scores_eq|].
    split.
    { apply (get_map_unique cat_name
               (criterion_averages (scores_of_team t store))); auto.
      apply Hu. }
    split; [exact Hp | exact Hb].
Qed.

(** * The further properties on the scenario *)

Lemma demo_unique_names : unique_names demo_config.
Proof.
  split.
  - cbn. constructor; [intros [] | constructor].
  - intros cat [<- | []]. cbn. constructor; [intros [] | constructor].
Qed.

Lemma demo_form_store : form_store demo_config form_judges.
Proof.
  intros e [<- | [<- | []]].
  - exists (demo_value 6). split; [|reflexivity].
    intros cat crit [<- | []] [<- | []]. unfold demo_value. cbn. lia.
  - exists (demo_value 10). split; [|reflexivity].
    intros cat crit [<- | []] [<- | []]. unfold demo_value. cbn. lia.
Qed.

Lemma avg_score_between_witness :
  (Z2Qc 6 <= avg_score (stat_of (result_of demo_config two_judges) "Alpha" "Tech"))%Qc /\
  (avg_score (stat_of (result_of demo_config two_judges) "Alpha" "Tech") <= Z2Qc 10)%Qc.
Proof.
  apply (avg_score_between_contributions
           demo_config two_judges (result_of demo_config two_judges)
           "Alpha" "Tech").
  - vm_compute. reflexivity.
  - vm_compute. reflexivity.
  - vm_compute. reflexivity.
  - change (Forall (fun s => 6 <= s <= 10) [6; 10]).
    constructor; [lia|]. constructor; [lia|]. constructor.
Defined.

Lemma percentage_between_witness :
  (Z2Qc 0 <= percentage (stat_of (result_of demo_config two_judges) "Alpha" "Tech"))%Qc /\
  (percentage (stat_of (result_of demo_config two_judges) "Alpha" "Tech") <= Z2Qc 100)%Qc.
Proof.
  apply (percentage_between_0_and_100
           demo_config two_judges (result_of demo_config two_judges)
           "Alpha" "Tech").
  - vm_compute. reflexivity.
  - vm_compute. reflexivity.
  - change (Forall (fun s => 0 <= s <= 10) [6; 10]).
    constructor; [lia|]. constructor; [lia|]. constructor.
Defined.

Lemma unknown_category_witness :
  calculate_all_team_scores demo_config
    ([] ++ ("J1_Alpha",
            with_scores (demo_sub "J1" "Alpha" 6)
              ([("Tech", [("crit", 6)])] ++ ("Design", design_scores) :: []))
        :: [])
  = calculate_all_team_scores demo_config
      ([] ++ ("J1_Alpha",
              with_scores (demo_sub "J1" "Alpha" 6)
                ([("Tech", [("crit", 6)])] ++ []))
          :: []).
Proof.
  apply (unknown_category_skipped demo_config [] [] "J1_Alpha"
           (demo_sub "J1" "Alpha" 6) [("Tech", [("crit", 6)])] []
           "Design" design_scores).
  cbn. intros [H | []]. discriminate.
Defined.

Lemma judges_count_witness :
  exists R st,
    calculate_all_team_scores demo_config two_judges = Some R /\
    get_stat R "Alpha" "Tech" = Some st /\
    judges_count st
    = Z.of_nat (List.length (filter (scores_category "Alpha" "Tech")
                                    (values two_judges))) /\
    judges_count st <= Z.of_nat (List.length two_judges).
Proof.
  apply (judges_count_counts_submissions demo_config two_judges "Alpha" "Tech").
  - intros e [<- | [<- | []]]; cbn; (constructor; [intros [] | constructor]).
  - cbn. auto.
  - cbn. auto.
Defined.

Lemma ranked_iff_scored_witness :
  exists R r,
    calculate_all_team_scores demo_config two_judges = Some R /\
    get "Tech" (get_category_winners demo_config R) = Some r /\
    forall t,
      In t (map fst r) <->
      In t (teams demo_config) /\
      exists k data cs,
        In (k, data) two_judges /\ team data = t /\ In ("Tech", cs) (scores data).
Proof.
  apply (ranked_iff_scored demo_config two_judges "Tech").
  cbn. auto.
Defined.

Lemma standings_ties_witness :
  (index_of (standing_team (nth 0 (standings_of (result_of demo_config tied_store))
                                no_standing))
            (teams demo_config)
   < index_of (standing_team (nth 1 (standings_of (result_of demo_config tied_store))
                                  no_standing))
              (teams demo_config))%nat.
Proof.
  apply (standings_ties_in_configuration_order
           demo_config tied_store (result_of demo_config tied_store)
           (standings_of (result_of demo_config tied_store))).
  - vm_compute. reflexivity.
  - vm_compute. reflexivity.
  - exists [], [], []. vm_compute. reflexivity.
  - vm_compute. reflexivity.
Defined.


Lemma podium_witness :
  exists r p,
    get "Tech"
        (get_category_winners demo_config (result_of demo_config tied_store))
    = Some r /\
    podium r = Some p /\
    map snd p = firstn 3 r /\
    (forall w y, In w (firstn 3 r) -> In y (skipn 3 r) -> (snd y <= snd w)%Qc) /\
    match r with
    | [] => p = []
    | w :: _ =>
        hd_error p = Some (1%nat, Gold, w) /\
        forall y, In y r -> (snd y <= snd w)%Qc
    end.
Proof.
  apply (podium_of_ranking demo_config (result_of demo_config tied_store) "Tech").
  cbn. auto.
Defined.

Lemma team_index_witness :
  let i := clamp_team_index three_teams 7 in
  valid_team_index three_teams i /\
  (0 <= 7 < Z.of_nat (List.length three_teams) -> i = 7) /\
  (forall j, prev_team i = Some j -> valid_team_index three_teams j) /\
  (forall j, next_team three_teams i = Some j -> valid_team_index three_teams j).
Proof.
  apply (team_index_stays_valid three_teams 7). discriminate.
Defined.

Lemma resubmission_witness :
  let store1 :=
    save_action "J1" "Alpha" [("Tech", [("crit", 4)])] "" "2025-01-01 00:00:01"
      two_judges in
  let store2 :=
    save_action "J1" "Alpha" [("Tech", [("crit", 9)])] "" "2025-01-01 00:00:02"
      store1 in
  List.length store2 = List.length store1 /\
  exists R1 R2,
    calculate_all_team_scores demo_config store1 = Some R1 /\
    calculate_all_team_scores demo_config store2 = Some R2 /\
    (forall t' c,
        option_map judges_count (get_stat R2 t' c)
        = option_map judges_count (get_stat R1 t' c)) /\
    (forall t' c, t' <> "Alpha" -> get_stat R2 t' c = get_stat R1 t' c).
Proof.
  apply (resubmission_replaces demo_config "J1" "Alpha"
           [("Tech", [("crit", 4)])] [("Tech", [("crit", 9)])]
           "" "" "2025-01-01 00:00:01" "2025-01-01 00:00:02" two_judges).
  reflexivity.
Defined.


Lemma form_scores_witness :
  exists R,
    calculate_all_team_scores demo_config form_judges = Some R /\
    (forall t c st,
        get_stat R t c = Some st ->
        ((Z2Qc 0 <= percentage st)%Qc /\ (percentage st <= Z2Qc 100)%Qc) /\
        (0 < judges_count st ->
         (Z2Qc 0 <= avg_score st)%Qc /\
         (avg_score st <= Z2Qc (category_max demo_config c))%Qc)) /\
    percentages_within (Z2Qc 0) (Z2Qc 100) R.
Proof.
  apply (form_scores_within_range demo_config form_judges).
  - exact demo_unique_names.
  - exact demo_form_store.
Defined.

Lemma criterion_averages_witness :
  exists A,
    avg_scores demo_config (scores_of_team "Alpha" form_judges) = Some A /\
    shape A
    = map (fun cat => (cat_name cat, map crit_name (criteria cat)))
          (categories demo_config) /\
    forall cat crit,
      In cat (categories demo_config) -> In crit (criteria cat) ->
      exists inner a,
        get (cat_name cat) A = Some inner /\
        get (crit_name crit) inner = Some a /\
        (criterion_scores (cat_name cat) (crit_name crit)
                          (scores_of_team "Alpha" form_judges) = [] ->
         a = Z2Qc 0) /\
        forall lo hi,
          criterion_scores (cat_name cat) (crit_name crit)
                           (scores_of_team "Alpha" form_judges) <> [] ->
          (forall e cs v,
              In e (scores_of_team "Alpha" form_judges) ->
              get (cat_name cat) (scores (snd e)) = Some cs ->
              get (crit_name crit) cs = Some v -> lo <= v <= hi) ->
          (Z2Qc lo <= a)%Qc /\ (a <= Z2Qc hi)%Qc.
Proof.
  apply (criterion_averages_cover_configuration
           demo_config (scores_of_team "Alpha" form_judges)).
  exact demo_unique_names.
Defined.


Lemma progress_values_witness :
  (forall e cs,
      In e form_judges -> get "Tech" (scores (snd e)) = Some cs ->
      exists p,
        progress_value (Z2Qc (category_score cs))
                       (category_max demo_config "Tech") = Some p /\
        (Z2Qc 0 <= p)%Qc /\ (p <= Z2Qc 1)%Qc) /\
  exists A inner p,
    avg_scores demo_config (scores_of_team "Alpha" form_judges) = Some A /\
    get "Tech" A = Some inner /\
    progress_value (fsum (values inner)) (sum (map max_score
      [ {| crit_name := "crit"; max_score := 10 |} ]))
    = Some p /\
    (Z2Qc 0 <= p)%Qc /\ (p <= Z2Qc 1)%Qc.
Proof.
  apply (progress_values_within_unit
           demo_config form_judges "Alpha"
           {| cat_name := "Tech";
              criteria := [ {| crit_name := "crit"; max_score := 10 |} ] |}).
  - exact demo_unique_names.
  - exact demo_form_store.
  - cbn. auto.
Defined.

(** ** When the key of a submission is unique *)

Lemma judge_key_inj (j1 j2 t1 t2 : string) :
  has_underscore j1 = false -> has_underscore j2 = false ->
  judge_key j1 t1 = judge_key j2 t2 -> j1 = j2 /\ t1 = t2.
Proof.
  unfold judge_key. revert j2.
  induction j1 as [|c1 j1 IH]; intros [|c2 j2] H1 H2 E; cbn in *.
  - injection E as ->. auto.
  - injection E as <- _. cbn in H2. discriminate.
  - injection E as -> _. cbn in H1. discriminate.
  - injection E as -> E.
    apply orb_false_iff in H1, H2. destruct H1 as [_ H1]. destruct H2 as [_ H2].
    destruct (IH j2 H1 H2 E) as [-> ->]. auto.
Qed.

(** X22. For judges whose names contain no underscore, two different
    (judge, team) pairs never share a key, so a save by one judge leaves
    the entry of every other such judge and team in place. *)
Theorem judge_key_unique_without_underscore
    (j1 j2 t1 t2 : string) (s : dict (dict Z)) (n w : string) (store : ScoreStore) :
  has_underscore j1 = false -> has_underscore j2 = false ->
  (j1, t1) <> (j2, t2) ->
  judge_key j1 t1 <> judge_key j2 t2 /\
  get (judge_key j2 t2) (save_action j1 t1 s n w store)
  = get (judge_key j2 t2) store.
Proof.
  intros H1 H2 Hne.
  assert (Hk : judge_key j1 t1 <> judge_key j2 t2).
  { intros E. destruct (judge_key_inj _ _ _ _ H1 H2 E) as [-> ->]. now apply Hne. }
  split; [exact Hk|]. unfold save_action. now apply get_set_neq.
Qed.

(** ** Independence of the iteration order *)








Lemma judge_key_unique_witness :
  judge_key "J1" "Alpha" <> judge_key "J2" "Alpha" /\
  get (judge_key "J2" "Alpha")
      (save_action "J1" "Alpha" [("Tech", [("crit", 9)])] "" "2025-01-01 00:00:02"
         two_judges)
  = get (judge_key "J2" "Alpha") two_judges.
Proof.
  apply (judge_key_unique_without_underscore "J1" "J2" "Alpha" "Alpha").
  - reflexivity.
  - reflexivity.
  - discriminate.
Defined.

